(** * Engineering-Timeline: the scroll-synchronised choreography engine

    A shallow embedding of the JavaScript sources

    - [animation.js]        (exploded view and group opacity),
    - [scrollController.js] (section state machine and model registry),
    - [main.js]             (model visibility switching and crossfades),

    together with the small parts of three.js and GSAP these files call.

    Conventions of the embedding.

    - A JavaScript number is an exact rational ([Q]); numeric equality is
      [Qeq].  Rounding, infinities and NaN of binary64 are not modelled.
    - A property that may be absent ([undefined] / [null]) is an [option];
      JavaScript truthiness of an object reference is "is [Some]".
    - A call either completes normally or throws; a throwing call keeps
      the mutations made before the throw.
    - Materials are shared mutable objects: they live in a store indexed by
      their identity, and scene-graph objects refer to them by identity.
    - A scene graph is a tree, as [Object3D.add] keeps it.  A part owns its
      mesh and its vectors: the builders create one mesh per part, and every
      vector stored in a part is a [clone()], so no two parts share a mesh
      and no stored vector is the position object of a mesh.
    - A closure handed to GSAP is a constructor naming what it captured.
    - GSAP's clock is explicit: the timeline carries its current time and
      the tweens created so far, and [tick] renders one frame. *)

From Stdlib Require Import QArith Qminmax Lqa.
From stdpp Require Import gmap strings list fin_maps.

Local Open Scope Q_scope.

(** ** JavaScript completions *)

Inductive JSError := TypeError.

Inductive Completion :=
| Normal
| Throw (e : JSError).

(** [Array.prototype.forEach] with a callback that mutates the element it is
    given and may throw: elements are visited in order, and a throw leaves
    the elements not yet visited as they were. *)
Fixpoint forEach {A : Type} (callback : A -> Completion * A) (l : list A)
  : Completion * list A :=
  match l with
  | [] => (Normal, [])
  | a :: rest =>
      match callback a with
      | (Normal, a') =>
          let (c, rest') := forEach callback rest in (c, a' :: rest')
      | (Throw e, a') => (Throw e, a' :: rest)
      end
  end.

(** ** The part of three.js the engine uses *)

Module THREE.

Record Vector3 := { x : Q; y : Q; z : Q }.


(** [v.clone()]: a fresh vector with the same components. *)
Definition clone (v : Vector3) : Vector3 :=
  {| x := x v; y := y v; z := z v |}.

(** [this.add(v)] *)
Definition add (this v : Vector3) : Vector3 :=
  {| x := x this + x v; y := y this + y v; z := z this + z v |}.

(** [this.lerpVectors(v1, v2, alpha)]: the result stored in [this]. *)
Definition lerpVectors (v1 v2 : Vector3) (alpha : Q) : Vector3 :=
  {| x := x v1 + (x v2 - x v1) * alpha;
     y := y v1 + (y v2 - y v1) * alpha;
     z := z v1 + (z v2 - z v1) * alpha |}.

(** A material, with the two fields the engine writes and two of the fields
    it never writes. *)
Record Material := {
  transparent : bool;
  opacity : Q;
  color : Z;
  depthWrite : bool
}.

(** The identity of a material object. *)
Abbreviation MaterialId := nat.

(** The [material] property of a mesh: one material or an array. *)
Inductive MeshMaterial :=
| SingleMaterial (m : MaterialId)
| MaterialArray (ms : list MaterialId).

(** What an object is: [isMesh], [isLineSegments], or neither (a group, a
    light, points, ...).  A mesh carries one material or an array of
    materials; a line-segments object carries one material, as three.js
    documents it and as the one [LineSegments] of the builders has it.  The
    [material] property itself may be missing. *)
Inductive ObjectKind :=
| Mesh (material : option MeshMaterial)
| LineSegments (material : option MaterialId)
| PlainObject.

Unset Elimination Schemes.
Inductive Object3D := mkObject3D {
  kind : ObjectKind;
  visible : bool;
  position : Vector3;
  children : list Object3D
}.
Set Elimination Schemes.

Definition set_visible (v : bool) (o : Object3D) : Object3D :=
  {| kind := kind o; visible := v; position := position o;
     children := children o |}.

Definition set_position (p : Vector3) (o : Object3D) : Object3D :=
  {| kind := kind o; visible := visible o; position := p;
     children := children o |}.

(** [object.traverse(callback)]: the callback runs on the object, then on
    every descendant, depth first, in child order. *)
Fixpoint traverse {S : Type} (callback : Object3D -> S -> S)
    (o : Object3D) (s : S) : S :=
  foldl (fun s' child => traverse callback child s')
        (callback o s) (children o).

End THREE.

(** ** animation.js *)

(** A part as the model builders create it: [{ mesh, originalPos,
    explodeDir }], to which [setupExplodedView] adds [explodedPos]. *)
Record Part := {
  mesh : option THREE.Object3D;
  originalPos : option THREE.Vector3;
  explodeDir : option THREE.Vector3;
  explodedPos : option THREE.Vector3
}.

Definition set_originalPos (v : THREE.Vector3) (p : Part) : Part :=
  {| mesh := mesh p; originalPos := Some v; explodeDir := explodeDir p;
     explodedPos := explodedPos p |}.

Definition set_explodedPos (v : THREE.Vector3) (p : Part) : Part :=
  {| mesh := mesh p; originalPos := originalPos p;
     explodeDir := explodeDir p; explodedPos := Some v |}.

Definition set_mesh (m : THREE.Object3D) (p : Part) : Part :=
  {| mesh := Some m; originalPos := originalPos p;
     explodeDir := explodeDir p; explodedPos := explodedPos p |}.

(** The body of the [forEach] callback of [setupExplodedView].  Reading
    [part.mesh.position] with no mesh, and [add] with no [explodeDir], throw
    a [TypeError]; in the second case [originalPos] may already be stored. *)
Definition setupExplodedView_part (part : Part) : Completion * Part :=
  let stored :=
    match originalPos part with
    | Some _ => (Normal, part)
    | None =>
        match mesh part with
        | Some m => (Normal, set_originalPos (THREE.clone (THREE.position m)) part)
        | None => (Throw TypeError, part)
        end
    end in
  match stored with
  | (Throw e, part1) => (Throw e, part1)
  | (Normal, part1) =>
      match originalPos part1, explodeDir part1 with
      | Some o, Some d =>
          (Normal, set_explodedPos (THREE.add (THREE.clone o) d) part1)
      | _, _ => (Throw TypeError, part1)
      end
  end.

Definition setupExplodedView (parts : list Part) : Completion * list Part :=
  forEach setupExplodedView_part parts.

(** [Math.max(0, Math.min(1, progress))] *)
Definition clamp01 (progress : Q) : Q := Qmax 0 (Qmin 1 progress).

(** The cubic ease in-out of [updateExplodedView], applied to the clamped
    progress [t]. *)
Definition eased (t : Q) : Q :=
  if Qlt_le_dec t 0.5
  then 4 * t * t * t
  else 1 - Qpower (-2 * t + 2) 3 / 2.

(** The body of the [forEach] callback of [updateExplodedView]. *)
Definition updateExplodedView_part (e : Q) (part : Part) : Part :=
  match mesh part, originalPos part, explodedPos part with
  | Some m, Some o, Some ex =>
      set_mesh (THREE.set_position (THREE.lerpVectors o ex e) m) part
  | _, _, _ => part
  end.

(** [updateExplodedView(parts, progress)]; its callback cannot throw. *)
Definition updateExplodedView (parts : list Part) (progress : Q) : list Part :=
  let t := clamp01 progress in
  map (updateExplodedView_part (eased t)) parts.

(** [mat.transparent = true; mat.opacity = opacity] on the material [m]. *)
Definition fade_material (opacity : Q) (mat : THREE.Material) : THREE.Material :=
  {| THREE.transparent := true;
     THREE.opacity := opacity;
     THREE.color := THREE.color mat;
     THREE.depthWrite := THREE.depthWrite mat |}.

(** The callback [setGroupOpacity] passes to [traverse]. *)
Definition setGroupOpacity_child (opacity : Q) (child : THREE.Object3D)
    (mats : gmap nat THREE.Material) : gmap nat THREE.Material :=
  match THREE.kind child with
  | THREE.Mesh (Some (THREE.MaterialArray ms)) =>
      foldl (fun acc m => alter (fade_material opacity) m acc) mats ms
  | THREE.Mesh (Some (THREE.SingleMaterial m)) =>
      alter (fade_material opacity) m mats
  | THREE.LineSegments (Some m) =>
      alter (fade_material opacity) m mats
  | _ => mats
  end.

Definition setGroupOpacity (group : THREE.Object3D) (opacity : Q)
    (mats : gmap nat THREE.Material) : gmap nat THREE.Material :=
  THREE.traverse (setGroupOpacity_child opacity) group mats.

(** ** scrollController.js *)

Module ScrollController.

(** The [modelData] object given to [registerModel]; its [parts] property
    may be missing. *)
Record ModelData := { parts : option (list Part) }.


Section Controller.

(** The state the installed observer acts on (the state of [main.js]). *)
Context {W : Type}.

(** The module-level variables.  [notified] is instrumentation: the
    arguments of every call made to the observer, oldest first. *)
Record State := {
  activeSection : string;
  sectionModels : gmap string ModelData;
  onSectionChangeCallback : option (string -> string -> W -> W);
  notified : list (string * string)
}.

(** The values the module-level [let]s start with. *)
Definition initial : State :=
  {| activeSection := "hero";
     sectionModels := ∅;
     onSectionChangeCallback := None;
     notified := [] |}.

Definition setOnSectionChange (callback : string -> string -> W -> W)
    (st : State) : State :=
  {| activeSection := activeSection st;
     sectionModels := sectionModels st;
     onSectionChangeCallback := Some callback;
     notified := notified st |}.

Definition set_sectionModels (m : gmap string ModelData) (st : State)
  : State :=
  {| activeSection := activeSection st;
     sectionModels := m;
     onSectionChangeCallback := onSectionChangeCallback st;
     notified := notified st |}.

(** [registerModel(sectionId, modelData)]: the entry is stored first;
    [modelData.parts.forEach] throws when [parts] is missing, and the
    callback of [setupExplodedView] may throw on a part.  The stored
    object is the one whose parts are being set up. *)
Definition registerModel (sectionId : string) (modelData : ModelData)
    (st : State) : Completion * State :=
  let st1 := set_sectionModels (<[sectionId := modelData]> (sectionModels st)) st in
  match parts modelData with
  | None => (Throw TypeError, st1)
  | Some ps =>
      let (c, ps') := setupExplodedView ps in
      (c, set_sectionModels
            (<[sectionId := {| parts := Some ps' |}]> (sectionModels st1))
            st1)
  end.

Definition getActiveSection (st : State) : string := activeSection st.

Definition setActiveSection (sectionId : string) (s : State * W)
  : State * W :=
  let (st, w) := s in
  if String.eqb (activeSection st) sectionId then s
  else
    let prevSection := activeSection st in
    match onSectionChangeCallback st with
    | Some callback =>
        ({| activeSection := sectionId;
            sectionModels := sectionModels st;
            onSectionChangeCallback := onSectionChangeCallback st;
            notified := notified st ++ [(sectionId, prevSection)] |},
         callback sectionId prevSection w)
    | None =>
        ({| activeSection := sectionId;
            sectionModels := sectionModels st;
            onSectionChangeCallback := onSectionChangeCallback st;
            notified := notified st |}, w)
    end.

(** The [onUpdate] handler of the trigger of [sectionId]. *)
Definition onUpdate (sectionId : string) (progress : Q) (st : State)
  : State :=
  match sectionModels st !! sectionId with
  | Some model =>
      match parts model with
      | Some ps =>
          set_sectionModels
            (<[sectionId := {| parts := Some (updateExplodedView ps progress) |}]>
               (sectionModels st)) st
      | None => st
      end
  | None => st
  end.

(** What the scroll triggers created by [initScrollTriggers] deliver. *)
Inductive DriverEvent :=
| Enter (sectionId : string)
| EnterBack (sectionId : string)
| Update (sectionId : string) (progress : Q).

Definition handle (ev : DriverEvent) (s : State * W) : State * W :=
  match ev with
  | Enter sectionId => setActiveSection sectionId s
  | EnterBack sectionId => setActiveSection sectionId s
  | Update sectionId progress => (onUpdate sectionId progress (fst s), snd s)
  end.

End Controller.

Arguments State : clear implicits.
Arguments DriverEvent : clear implicits.

End ScrollController.

(** ** The part of GSAP the engine uses

    [gsap.to({}, { duration, delay, onUpdate, onComplete })] appends a tween
    to the root timeline; the tween starts [delay] seconds after the time at
    which it was created.  On every tick the root timeline renders its
    tweens in creation order: a started tween calls [onUpdate] with its
    progress in [0,1], and a tween that has reached progress 1 then calls
    [onComplete] and leaves the timeline.  There is no call in the engine
    that removes or kills a tween. *)

Module GSAP.

Section Timeline.

(** [A]: the callbacks of a tween; [St]: the state they act on. *)
Context {A St : Type}.
Variable onUpdate : A -> Q -> St -> St.
Variable onComplete : A -> St -> St.

Record Tween := {
  created : Q;
  duration : Q;
  delay : Q;
  vars : A
}.

Record Timeline := {
  time : Q;
  tweens : list Tween
}.

Definition empty : Timeline := {| time := 0; tweens := [] |}.

(** [gsap.to({}, vars)] *)
Definition to (d dl : Q) (v : A) (tl : Timeline) : Timeline :=
  {| time := time tl;
     tweens := tweens tl ++
               [{| created := time tl; duration := d; delay := dl;
                   vars := v |}] |}.

Definition endTime (tw : Tween) : Q := created tw + delay tw + duration tw.

(** [this.progress()] of a started tween at time [now]. *)
Definition progress (tw : Tween) (now : Q) : Q :=
  if Qle_bool (endTime tw) now then 1
  else clamp01 ((now - (created tw + delay tw)) / duration tw).

(** Rendering one tween at time [now]: the tween is kept unless it
    completed. *)
Definition render (now : Q) (tw : Tween) (st : St) : option Tween * St :=
  if Qle_bool (created tw + delay tw) now then
    let st1 := onUpdate (vars tw) (progress tw now) st in
    if Qle_bool (endTime tw) now
    then (None, onComplete (vars tw) st1)
    else (Some tw, st1)
  else (Some tw, st).

Fixpoint renderAll (now : Q) (tws : list Tween) (st : St)
  : list Tween * St :=
  match tws with
  | [] => ([], st)
  | tw :: rest =>
      let (kept, st1) := render now tw st in
      let (rest', st2) := renderAll now rest st1 in
      (match kept with Some tw' => tw' :: rest' | None => rest' end, st2)
  end.

(** One tick of the ticker at time [now]. *)
Definition tick (now : Q) (s : Timeline * St) : Timeline * St :=
  let (tws, st') := renderAll now (tweens (fst s)) (snd s) in
  ({| time := now; tweens := tws |}, st').

End Timeline.

Arguments Tween : clear implicits.
Arguments Timeline : clear implicits.

End GSAP.

(** ** main.js *)

Module Main.

(** What a model creator returns and [models[eraId]] holds. *)
Record ModelEntry := {
  group : THREE.Object3D;
  parts : list Part
}.

Definition set_group (g : THREE.Object3D) (m : ModelEntry) : ModelEntry :=
  {| group := g; parts := parts m |}.

Definition ERA_ORDER : list string :=
  ["wheel"; "steam"; "electricity"; "internet"; "ai"]%string.

(** The two pairs of closures [showModel] hands to [gsap.to]: the fade-out
    of the previous model and the fade-in of the new one.  Each closure
    captures the entry of [models] under the given id. *)
Inductive FadeCallbacks :=
| FadeOut (eraId : string)
| FadeIn (eraId : string).

(** The module-level variables of [main.js] the engine uses, the store of
    materials, and GSAP's root timeline. *)
Record State := {
  models : gmap string ModelEntry;
  currentModelId : option string;
  materials : gmap nat THREE.Material;
  timeline : GSAP.Timeline FadeCallbacks
}.

Definition initial (mats : gmap nat THREE.Material) : State :=
  {| models := ∅; currentModelId := None; materials := mats;
     timeline := GSAP.empty |}.

Definition set_models (m : gmap string ModelEntry) (st : State) : State :=
  {| models := m; currentModelId := currentModelId st;
     materials := materials st; timeline := timeline st |}.

Definition set_currentModelId (c : option string) (st : State) : State :=
  {| models := models st; currentModelId := c;
     materials := materials st; timeline := timeline st |}.

Definition set_materials (m : gmap nat THREE.Material) (st : State) : State :=
  {| models := models st; currentModelId := currentModelId st;
     materials := m; timeline := timeline st |}.

Definition set_timeline (tl : GSAP.Timeline FadeCallbacks) (st : State)
  : State :=
  {| models := models st; currentModelId := currentModelId st;
     materials := materials st; timeline := tl |}.

(** [setGroupOpacity(model.group, opacity)] for the model under [eraId]. *)
Definition setModelOpacity (eraId : string) (opacity : Q) (st : State)
  : State :=
  match models st !! eraId with
  | Some model =>
      set_materials (setGroupOpacity (group model) opacity (materials st)) st
  | None => st
  end.

(** [model.group.visible = v] for the model under [eraId]. *)
Definition setModelVisible (eraId : string) (v : bool) (st : State) : State :=
  set_models (alter (fun m => set_group (THREE.set_visible v (group m)) m)
                    eraId (models st)) st.

(** The [onUpdate] closures of [showModel]. *)
Definition onUpdate (cb : FadeCallbacks) (progress : Q) (st : State) : State :=
  match cb with
  | FadeOut eraId => setModelOpacity eraId (1 - progress) st
  | FadeIn eraId => setModelOpacity eraId progress st
  end.

(** The [onComplete] closures of [showModel]. *)
Definition onComplete (cb : FadeCallbacks) (st : State) : State :=
  match cb with
  | FadeOut eraId => setModelOpacity eraId 1 (setModelVisible eraId false st)
  | FadeIn eraId => setModelOpacity eraId 1 st
  end.

Definition gsap_to (d dl : Q) (cb : FadeCallbacks) (st : State) : State :=
  set_timeline (GSAP.to d dl cb (timeline st)) st.

(** One animation frame of GSAP's ticker at time [now]. *)
Definition tick (now : Q) (st : State) : State :=
  let (tl, st') := GSAP.tick onUpdate onComplete now (timeline st, st) in
  set_timeline tl st'.

(** Truthiness of [currentModelId]: not [null] and not the empty string. *)
Definition truthy_id (c : option string) : option string :=
  match c with
  | Some id => if String.eqb id "" then None else Some id
  | None => None
  end.

Definition showModel (eraId : string) (st : State) : State :=
  if bool_decide (currentModelId st = Some eraId) then st
  else
    (* Hide previous *)
    let st1 :=
      match truthy_id (currentModelId st) with
      | Some cur =>
          match models st !! cur with
          | Some _ => gsap_to 0.3 0 (FadeOut cur) st
          | None => st
          end
      | None => st
      end in
    (* Show new *)
    let st2 :=
      match models st1 !! eraId with
      | Some _ =>
          gsap_to 0.4 0.1 (FadeIn eraId)
            (setModelVisible eraId true (setModelOpacity eraId 0 st1))
      | None => st1
      end in
    set_currentModelId (Some eraId) st2.

Definition hideAllModels (st : State) : State :=
  set_currentModelId None
    (set_models
       ((fun m => set_group (THREE.set_visible false (group m)) m)
          <$> models st) st).

Definition onSectionChange (newSection prevSection : string) (st : State)
  : State :=
  if bool_decide (newSection ∈ ERA_ORDER) then showModel newSection st
  else hideAllModels st.

End Main.

(** ** The application: both modules and the driver's events *)

Abbreviation World := (ScrollController.State Main.State * Main.State)%type.

(** The body of the [forEach] callback of [buildModels], for an era whose
    creator returned [entry].  The part array is shared by [models] and
    [sectionModels], so both see the result of the second
    [setupExplodedView]. *)
Definition buildModel (eraId : string) (entry : Main.ModelEntry) (w : World)
  : Completion * World :=
  let (sc, st) := w in
  let hidden := Main.set_group (THREE.set_visible false (Main.group entry)) entry in
  let st1 := Main.set_models (<[eraId := hidden]> (Main.models st)) st in
  match ScrollController.registerModel eraId
          {| ScrollController.parts := Some (Main.parts entry) |} sc with
  | (Throw e, sc1) => (Throw e, (sc1, st1))
  | (Normal, sc1) =>
      match sc1.(ScrollController.sectionModels) !! eraId with
      | Some {| ScrollController.parts := Some ps1 |} =>
          let (c, ps2) := setupExplodedView ps1 in
          (c,
           (ScrollController.set_sectionModels
              (<[eraId := {| ScrollController.parts := Some ps2 |}]>
                 sc1.(ScrollController.sectionModels)) sc1,
            Main.set_models
              (<[eraId := {| Main.group := Main.group hidden;
                             Main.parts := ps2 |}]> (Main.models st1)) st1))
      | _ => (Normal, (sc1, st1))
      end
  end.

(** [buildModels]: [creators] holds what each entry of [modelCreators]
    returns; an era without a creator is skipped. *)
Fixpoint buildModels_from (eras : list string)
    (creators : gmap string Main.ModelEntry) (w : World) : Completion * World :=
  match eras with
  | [] => (Normal, w)
  | eraId :: rest =>
      match creators !! eraId with
      | None => buildModels_from rest creators w
      | Some entry =>
          match buildModel eraId entry w with
          | (Normal, w1) => buildModels_from rest creators w1
          | (Throw e, w1) => (Throw e, w1)
          end
      end
  end.

Definition buildModels := buildModels_from Main.ERA_ORDER.

(** [initApp], from the module-level initial values and with the container
    element present: the models are built, the observer is installed, and no
    scroll event has arrived yet. *)
Definition initApp (creators : gmap string Main.ModelEntry)
    (mats : gmap nat THREE.Material) : Completion * World :=
  match buildModels creators (ScrollController.initial, Main.initial mats) with
  | (Normal, (sc, st)) =>
      let sc1 := ScrollController.setOnSectionChange Main.onSectionChange sc in
      let st1 :=
        if bool_decide (ScrollController.getActiveSection sc1 ∈ Main.ERA_ORDER)
        then Main.showModel (ScrollController.getActiveSection sc1) st
        else st in
      (Normal, (sc1, st1))
  | (Throw e, w) => (Throw e, w)
  end.

(** A scroll event of the driver. *)
Definition enter (sectionId : string) (w : World) : World :=
  ScrollController.handle (ScrollController.Enter sectionId) w.

(** An animation frame: GSAP's ticker advances to [now]. *)
Definition frame (now : Q) (w : World) : World :=
  (fst w, Main.tick now (snd w)).

(** ** The formulas of the specification, for comparison with the code *)

Module Spec.


(** The cubic ease-in-out: [4·t³] below one half, [1 − (−2t+2)³/2] from
    one half on. *)
Definition eased (t : Q) : Q :=
  if Qlt_le_dec t (1 # 2)
  then 4 * t ^ 3
  else 1 - (-2 * t + 2) ^ 3 / 2.


End Spec.

(** ** Predicates used in the statements *)




(** A part on which the callback of [setupExplodedView] does not throw: it
    has an [explodeDir], and an [originalPos] or a mesh to take it from. *)
Definition setup_ready (p : Part) : Prop :=
  is_Some (explodeDir p) /\ (is_Some (originalPos p) \/ is_Some (mesh p)).

(** [p'] is [p] after [setupExplodedView]: the mesh and [explodeDir] are
    kept, [originalPos] is kept when present and else taken from the mesh
    position, and [explodedPos] is their sum. *)
Definition set_up (p p' : Part) : Prop :=
  exists o d,
    mesh p' = mesh p /\ explodeDir p' = Some d /\ explodeDir p = Some d /\
    originalPos p' = Some o /\
    (forall o0, originalPos p = Some o0 -> o = o0) /\
    (originalPos p = None ->
       exists m, mesh p = Some m /\ o = THREE.position m) /\
    explodedPos p' = Some (THREE.add o d).

(** A part whose exploded position has been computed: it has an
    [originalPos], an [explodeDir], and their sum as [explodedPos]. *)
Definition settled (p : Part) : Prop :=
  exists o d,
    originalPos p = Some o /\ explodeDir p = Some d /\
    explodedPos p = Some (THREE.add o d).

(** The objects of the subtree of [o], in the order [traverse] visits them. *)
Fixpoint subtree (o : THREE.Object3D) : list THREE.Object3D :=
  o :: flat_map subtree (THREE.children o).

(** The materials of one object, when it is a mesh or a line-segments
    object. *)
Definition object_materials (o : THREE.Object3D) : list nat :=
  match THREE.kind o with
  | THREE.Mesh (Some (THREE.SingleMaterial m)) => [m]
  | THREE.Mesh (Some (THREE.MaterialArray ms)) => ms
  | THREE.LineSegments (Some m) => [m]
  | _ => []
  end.

(** Every mesh material and line-segments material in the subtree. *)
Definition group_materials (g : THREE.Object3D) : list nat :=
  flat_map object_materials (subtree g).

(** The model under [eraId] exists and its group is hidden. *)
Definition hidden (eraId : string) (st : Main.State) : Prop :=
  exists entry, Main.models st !! eraId = Some entry /\
                THREE.visible (Main.group entry) = false.

(** Frames at the successive times [ts]. *)
Definition run_frames (ts : list Q) (st : Main.State) : Main.State :=
  foldl (fun s t => Main.tick t s) st ts.

(** Every material flagged transparent in [mats] is still there and still
    flagged transparent in [mats']. *)
Definition still_transparent (mats mats' : gmap nat THREE.Material) : Prop :=
  forall i mat,
    mats !! i = Some mat -> THREE.transparent mat = true ->
    exists mat', mats' !! i = Some mat' /\ THREE.transparent mat' = true.

(** The operations of [main.js] that run after initialisation. *)
Inductive MainOp :=
| OpTick (now : Q)
| OpShowModel (eraId : string)
| OpHideAllModels
| OpSectionChange (newSection prevSection : string).

Definition run_op (op : MainOp) (st : Main.State) : Main.State :=
  match op with
  | OpTick now => Main.tick now st
  | OpShowModel eraId => Main.showModel eraId st
  | OpHideAllModels => Main.hideAllModels st
  | OpSectionChange n p => Main.onSectionChange n p st
  end.

Definition run_ops (ops : list MainOp) (st : Main.State) : Main.State :=
  foldl (fun s op => run_op op s) st ops.

#[global] Instance FadeCallbacks_eq_dec : EqDecision Main.FadeCallbacks.
Proof. solve_decision. Defined.

(** The fade-in tweens of the model [eraId] among [tws]. *)
Definition fadeIns (eraId : string)
    (tws : list (GSAP.Tween Main.FadeCallbacks))
  : list (GSAP.Tween Main.FadeCallbacks) :=
  filter (fun tw => GSAP.vars tw = Main.FadeIn eraId) tws.

(** ** A small scene used to exercise the definitions *)

Module Example.

Definition origin : THREE.Vector3 :=
  {| THREE.x := 0; THREE.y := 0; THREE.z := 0 |}.

Definition vec (a b c : Q) : THREE.Vector3 :=
  {| THREE.x := a; THREE.y := b; THREE.z := c |}.

(** A material as [createBaseMaterial] makes it: opaque. *)
Definition baseMaterial : THREE.Material :=
  {| THREE.transparent := false; THREE.opacity := 1;
     THREE.color := 9136404; THREE.depthWrite := true |}.

(** A mesh at [p] with the single material [m]. *)
Definition meshAt (p : THREE.Vector3) (m : nat) : THREE.Object3D :=
  {| THREE.kind := THREE.Mesh (Some (THREE.SingleMaterial m));
     THREE.visible := true; THREE.position := p; THREE.children := [] |}.

(** A part as the builders push it: the mesh, a clone of its position, and
    the explode direction. *)
Definition partAt (p d : THREE.Vector3) (m : nat) : Part :=
  {| mesh := Some (meshAt p m); originalPos := Some (THREE.clone p);
     explodeDir := Some d; explodedPos := None |}.

(** The hub cap of the wheel: at [(0, 0, 0.18)], exploding by
    [(0, 0, -1.8)]. *)
Definition hubCap : Part := partAt (vec 0 0 0.18) (vec 0 0 (-1.8)) 0.

(** The rim of the wheel. *)
Definition rim : Part := partAt origin (vec 0 0 0.8) 1.

(** The boiler of the steam engine. *)
Definition boiler : Part := partAt (vec 0 0.5 0) (vec 0 1.5 0) 2.


(** A part without [explodeDir]. *)
Definition noDirection : Part :=
  {| mesh := Some (meshAt origin 0); originalPos := Some origin;
     explodeDir := None; explodedPos := None |}.

Definition groupOf (ps : list Part) : THREE.Object3D :=
  {| THREE.kind := THREE.PlainObject; THREE.visible := true;
     THREE.position := origin;
     THREE.children := omap mesh ps |}.

Definition wheelParts : list Part := [hubCap; rim].
Definition steamParts : list Part := [boiler].

(** What the creators of the wheel and of the steam engine return here. *)
Definition creators : gmap string Main.ModelEntry :=
  <["wheel"%string := {| Main.group := groupOf wheelParts;
                         Main.parts := wheelParts |}]>
    (<["steam"%string := {| Main.group := groupOf steamParts;
                            Main.parts := steamParts |}]> ∅).

Definition mats : gmap nat THREE.Material :=
  <[0%nat := baseMaterial]>
    (<[1%nat := baseMaterial]> (<[2%nat := baseMaterial]> ∅)).

(** The application after [initApp]. *)
Definition started : World := snd (initApp creators mats).

(** The wheel is shown and its fade-in has completed. *)
Definition wheelShown : World := frame 1 (enter "wheel" started).


(** A group with a mesh carrying an array of materials, a line-segments
    child and a plain child holding a further mesh. *)
Definition mixedGroup : THREE.Object3D :=
  {| THREE.kind := THREE.PlainObject; THREE.visible := true;
     THREE.position := origin;
     THREE.children :=
       [ {| THREE.kind := THREE.Mesh (Some (THREE.MaterialArray [0; 1]%nat));
            THREE.visible := true; THREE.position := origin;
            THREE.children := [] |};
         {| THREE.kind := THREE.LineSegments (Some 2%nat);
            THREE.visible := true; THREE.position := origin;
            THREE.children := [] |};
         {| THREE.kind := THREE.PlainObject;
            THREE.visible := false; THREE.position := origin;
            THREE.children := [meshAt (vec 0 1 0) 3] |} ] |}.

End Example.

(** ** Scroll triggers: [initScrollTriggers] and [dispose]

    [ScrollTrigger.create] registers a trigger with the ScrollTrigger
    plugin and returns its instance; [st.kill()] removes that instance.  A
    trigger is represented by its handle and the section whose element it
    watches; only a live trigger delivers events. *)

Module Triggers.

Record ScrollTrigger := {
  handle : nat;
  sectionId : string
}.

(** The live triggers of the plugin, the module variable [scrollTriggers]
    of [scrollController.js], and the next free handle. *)
Record State := {
  live : list ScrollTrigger;
  scrollTriggers : list ScrollTrigger;
  next : nat
}.

Definition initial : State :=
  {| live := []; scrollTriggers := []; next := 0 |}.





End Triggers.

(** ** Runs of the application *)

(** What happens to the running application: an event of the scroll driver,
    or an animation frame. *)
Inductive AppEvent :=
| EvDriver (ev : ScrollController.DriverEvent)
| EvFrame (now : Q).

Definition step (w : World) (ev : AppEvent) : World :=
  match ev with
  | EvDriver d => ScrollController.handle d w
  | EvFrame now => frame now w
  end.

Definition run (evs : list AppEvent) (w : World) : World :=
  foldl step w evs.

(** An event that is not an enter event. *)
Definition no_enter (ev : AppEvent) : Prop :=
  match ev with
  | EvDriver (ScrollController.Update _ _) => True
  | EvDriver _ => False
  | EvFrame _ => True
  end.

(** The current model of [main.js] is the model of the active section when
    that is an era, and none otherwise. *)
Definition in_sync (w : World) : Prop :=
  Main.currentModelId (snd w) =
  if bool_decide (ScrollController.activeSection (fst w) ∈ Main.ERA_ORDER)
  then Some (ScrollController.activeSection (fst w))
  else None.

(** Every visible model is the current one or has a fade-out pending. *)
Definition visible_accounted (st : Main.State) : Prop :=
  forall id entry,
    Main.models st !! id = Some entry ->
    THREE.visible (Main.group entry) = true ->
    Main.currentModelId st = Some id \/
    exists tw, tw ∈ GSAP.tweens (Main.timeline st) /\
               GSAP.vars tw = Main.FadeOut id.

(** Every model is hidden. *)
Definition all_hidden (st : Main.State) : Prop :=
  forall id entry,
    Main.models st !! id = Some entry ->
    THREE.visible (Main.group entry) = false.

(** Every opacity in the store lies in [0,1]. *)
Definition opacity_in_range (mats : gmap nat THREE.Material) : Prop :=
  forall i mat, mats !! i = Some mat ->
                0 <= THREE.opacity mat /\ THREE.opacity mat <= 1.



(** The fade-out and the fade-in [showModel] creates at time [c]. *)
Definition fadeOutTween (c : Q) (eraId : string)
  : GSAP.Tween Main.FadeCallbacks :=
  {| GSAP.created := c; GSAP.duration := 0.3; GSAP.delay := 0;
     GSAP.vars := Main.FadeOut eraId |}.

Definition fadeInTween (c : Q) (eraId : string)
  : GSAP.Tween Main.FadeCallbacks :=
  {| GSAP.created := c; GSAP.duration := 0.4; GSAP.delay := 0.1;
     GSAP.vars := Main.FadeIn eraId |}.

(** The registry of the controller and the models of [main.js] hold the
    same eras, with the same parts, all set up. *)
Definition registered_alike (w : World) : Prop :=
  forall id,
    match Main.models (snd w) !! id,
          ScrollController.sectionModels (fst w) !! id with
    | Some entry, Some md =>
        ScrollController.parts md = Some (Main.parts entry) /\
        Forall settled (Main.parts entry)
    | None, None => True
    | _, _ => False
    end.

(** * Properties *)

(** ** Arithmetic of the clamp and of the easing curve *)

Lemma Qmin_cases (a b : Q) :
  (a <= b /\ Qmin a b = a) \/ (b < a /\ Qmin a b = b).
Proof.
  unfold Qmin, GenericMinMax.gmin.
  destruct (a ?= b) eqn:E.
  - left. apply Qeq_alt in E. split; [lra | reflexivity].
  - left. apply Qlt_alt in E. split; [lra | reflexivity].
  - right. apply Qgt_alt in E. split; [lra | reflexivity].
Qed.

Lemma Qmax_cases (a b : Q) :
  (a < b /\ Qmax a b = b) \/ (b <= a /\ Qmax a b = a).
Proof.
  unfold Qmax, GenericMinMax.gmax.
  destruct (a ?= b) eqn:E.
  - right. apply Qeq_alt in E. split; [lra | reflexivity].
  - left. apply Qlt_alt in E. split; [lra | reflexivity].
  - right. apply Qgt_alt in E. split; [lra | reflexivity].
Qed.

(** The three cases of [clamp01]. *)
Lemma clamp01_cases (t : Q) :
  (t <= 0 /\ clamp01 t = 0) \/
  (1 <= t /\ clamp01 t = 1) \/
  (0 < t < 1 /\ clamp01 t = t).
Proof.
  unfold clamp01.
  destruct (Qmin_cases 1 t) as [[H1 ->]|[H1 ->]].
  - right. left. split; [exact H1|].
    destruct (Qmax_cases 0 1) as [[H2 ->]|[H2 ->]]; [reflexivity | lra].
  - destruct (Qmax_cases 0 t) as [[H2 ->]|[H2 ->]].
    + right. right. split; [lra | reflexivity].
    + left. split; [exact H2 | reflexivity].
Qed.



Lemma clamp01_range (t : Q) : 0 <= clamp01 t <= 1.
Proof.
  destruct (clamp01_cases t) as [[H1 ->]|[[H1 ->]|[H1 ->]]]; lra.
Qed.


Lemma Qpower3_half (u : Q) : Qpower u 3 / 2 == u * u * u * (1 # 2).
Proof. simpl. field. Qed.

Lemma cube_le (u v : Q) : 0 <= u -> u <= v -> u * u * u <= v * v * v.
Proof.
  intros Hu Huv.
  assert (Hv : 0 <= v) by lra.
  assert (H1 : u * u <= v * v) by nra.
  assert (H0 : 0 <= u * u) by nra.
  nra.
Qed.

Lemma eased_lo (t : Q) : t < 0.5 -> eased t = 4 * t * t * t.
Proof.
  intros H. unfold eased. destruct (Qlt_le_dec t 0.5); [reflexivity | lra].
Qed.

Lemma eased_hi (t : Q) : 0.5 <= t -> eased t = 1 - Qpower (-2 * t + 2) 3 / 2.
Proof.
  intros H. unfold eased. destruct (Qlt_le_dec t 0.5); [lra | reflexivity].
Qed.

Lemma eased_mono (a b : Q) : 0 <= a -> a <= b -> b <= 1 -> eased a <= eased b.
Proof.
  intros Ha Hab Hb.
  destruct (Qlt_le_dec a 0.5) as [La|La], (Qlt_le_dec b 0.5) as [Lb|Lb].
  - rewrite !eased_lo by assumption. pose proof (cube_le a b Ha Hab). lra.
  - rewrite eased_lo, eased_hi by assumption. rewrite Qpower3_half.
    pose proof (cube_le a 0.5 Ha ltac:(lra)) as H1.
    pose proof (cube_le (-2 * b + 2) 1 ltac:(lra) ltac:(lra)) as H2.
    lra.
  - lra.
  - rewrite !eased_hi by assumption. rewrite !Qpower3_half.
    pose proof (cube_le (-2 * b + 2) (-2 * a + 2) ltac:(lra) ltac:(lra)) as H2.
    lra.
Qed.


(** The code's [4 * t * t * t] and [Math.pow] form agree with the
    specification's formula. *)
Lemma eased_spec (t : Q) : eased t == Spec.eased t.
Proof.
  unfold eased, Spec.eased.
  destruct (Qlt_le_dec t 0.5), (Qlt_le_dec t (1 # 2));
    solve [lra | simpl; ring | reflexivity].
Qed.


(** C8. The easing function of [updateExplodedView] is the cubic ease-in-out
    of the specification; it takes the values 0, 0.5 and 1 at 0, 0.5 and 1,
    and it is non-decreasing on [0,1]. *)
Theorem eased_endpoints_and_monotone :
  (forall t, eased t == Spec.eased t) /\
  eased 0 == 0 /\ eased 0.5 == 0.5 /\ eased 1 == 1 /\
  (forall a b, 0 <= a -> a <= b -> b <= 1 -> eased a <= eased b).
Proof.
  split; [exact eased_spec|].
  split; [reflexivity|]. split; [reflexivity|]. split; [reflexivity|].
  exact eased_mono.
Qed.

Lemma eased_endpoints_and_monotone_witness : eased 0.25 <= eased 0.75.
Proof.
  destruct eased_endpoints_and_monotone as (_ & _ & _ & _ & mono).
  apply mono; lra.
Defined.

(** ** The exploded view *)

Lemma clone_id (v : THREE.Vector3) : THREE.clone v = v.
Proof. by destruct v. Qed.











(** ** Setting up the exploded positions *)

Lemma setupExplodedView_part_ready (p : Part) :
  setup_ready p ->
  exists p', setupExplodedView_part p = (Normal, p') /\ set_up p p'.
Proof.
  intros [[d Hd] Hsrc]. unfold setupExplodedView_part.
  destruct (originalPos p) as [o|] eqn:Ho.
  - rewrite Ho, Hd. eexists. split; [reflexivity|].
    exists o, d. simpl. rewrite clone_id.
    repeat split; solve [done | congruence].
  - destruct Hsrc as [[? ?]|[m Hm]]; [done|]. rewrite Hm. simpl. rewrite Hd.
    eexists. split; [reflexivity|].
    exists (THREE.position m), d. simpl. rewrite !clone_id.
    repeat split; solve [done | congruence | eauto].
Qed.


Lemma set_up_settled (p p' : Part) : set_up p p' -> settled p'.
Proof. intros (o & d & _ & Hd & _ & Ho & _ & _ & He). by exists o, d. Qed.






(** ** Group opacity *)

(** Induction on scene graphs, with the hypothesis for every child. *)
Lemma Object3D_forall_ind (P : THREE.Object3D -> Prop) :
  (forall k v p cs, Forall P cs -> P (THREE.mkObject3D k v p cs)) ->
  forall o, P o.
Proof.
  intros step. fix IH 1. intros [k v p cs]. apply step.
  induction cs as [|c cs IHcs]; constructor; [apply IH | exact IHcs].
Qed.

Lemma group_materials_unfold (o : THREE.Object3D) :
  group_materials o
  = object_materials o ++ flat_map group_materials (THREE.children o).
Proof.
  unfold group_materials. destruct o as [k v p cs]. simpl. f_equal.
  induction cs as [|c cs IH]; simpl; [done|].
  by rewrite flat_map_app, IH.
Qed.

Section Fading.

Variable opacity : Q.

(** [mats'] is [mats] with exactly the materials of [touched] faded. *)
Let faded (touched : list nat) (mats mats' : gmap nat THREE.Material)
  : Prop :=
  forall i, mats' !! i =
            if decide (i ∈ touched) then fade_material opacity <$> mats !! i
            else mats !! i.

Lemma fade_material_twice (o : option THREE.Material) :
  fade_material opacity <$> (fade_material opacity <$> o)
  = fade_material opacity <$> o.
Proof. by destruct o. Qed.

Lemma faded_nil (mats : gmap nat THREE.Material) : faded [] mats mats.
Proof.
  intros i. destruct (decide (i ∈ [])) as [Hin|_]; [|done].
  by apply elem_of_nil in Hin.
Qed.

Lemma faded_app (t1 t2 : list nat) (m1 m2 m3 : gmap nat THREE.Material) :
  faded t1 m1 m2 -> faded t2 m2 m3 -> faded (t1 ++ t2) m1 m3.
Proof.
  intros H12 H23 i. rewrite H23, H12.
  destruct (decide (i ∈ t1)) as [I1|I1], (decide (i ∈ t2)) as [I2|I2],
           (decide (i ∈ t1 ++ t2)) as [I|I];
    try reflexivity; try apply fade_material_twice;
    exfalso; rewrite elem_of_app in I; tauto.
Qed.

Lemma faded_alter (m : nat) (mats : gmap nat THREE.Material) :
  faded [m] mats (alter (fade_material opacity) m mats).
Proof.
  intros i. rewrite lookup_alter.
  destruct (decide (i ∈ [m])) as [I|I]; rewrite list_elem_of_singleton in I.
  - subst i. by rewrite decide_True.
  - by rewrite decide_False.
Qed.

Lemma faded_array (ms : list nat) (mats : gmap nat THREE.Material) :
  faded ms mats
    (foldl (fun acc m => alter (fade_material opacity) m acc) mats ms).
Proof.
  revert mats. induction ms as [|m ms IH]; intros mats; simpl.
  - apply faded_nil.
  - change (m :: ms) with ([m] ++ ms).
    eapply faded_app; [apply faded_alter | apply IH].
Qed.

Lemma faded_child (o : THREE.Object3D) (mats : gmap nat THREE.Material) :
  faded (object_materials o) mats (setGroupOpacity_child opacity o mats).
Proof.
  unfold object_materials, setGroupOpacity_child.
  destruct (THREE.kind o) as [[[m|ms]|]|[m|]|];
    auto using faded_nil, faded_alter, faded_array.
Qed.

Lemma faded_children (cs : list THREE.Object3D) :
  Forall (fun c => forall mats,
            faded (group_materials c) mats
                  (THREE.traverse (setGroupOpacity_child opacity) c mats)) cs ->
  forall mats,
    faded (flat_map group_materials cs) mats
      (foldl (fun s c => THREE.traverse (setGroupOpacity_child opacity) c s)
             mats cs).
Proof.
  induction 1 as [|c cs Hc _ IH]; intros mats; simpl.
  - apply faded_nil.
  - eapply faded_app; [apply Hc | apply IH].
Qed.

(** What [setGroupOpacity] does to the store, material by material. *)
Lemma setGroupOpacity_lookup (g : THREE.Object3D)
    (mats : gmap nat THREE.Material) (i : nat) :
  setGroupOpacity g opacity mats !! i =
  if decide (i ∈ group_materials g)
  then fade_material opacity <$> mats !! i
  else mats !! i.
Proof.
  revert i.
  change (faded (group_materials g) mats (setGroupOpacity g opacity mats)).
  unfold setGroupOpacity. revert mats.
  induction g as [k v p cs IH] using Object3D_forall_ind. intros mats.
  rewrite group_materials_unfold. simpl.
  eapply faded_app; [apply faded_child | by apply faded_children].
Qed.

End Fading.

(** ** Rendering the timeline *)

Section Rendering.

Context {A St : Type}.
Variable onUpdate : A -> Q -> St -> St.
Variable onComplete : A -> St -> St.

Let renderAll := GSAP.renderAll onUpdate onComplete.

(** A property every callback preserves holds after a frame. *)
Lemma renderAll_invariant (P : St -> Prop) :
  (forall a q s, P s -> P (onUpdate a q s)) ->
  (forall a s, P s -> P (onComplete a s)) ->
  forall now tws s, P s -> P (snd (renderAll now tws s)).
Proof.
  intros Hu Hc now tws. induction tws as [|tw tws IH]; intros s Hs.
  - exact Hs.
  - unfold renderAll in *. simpl. unfold GSAP.render.
    destruct (Qle_bool (GSAP.created tw + GSAP.delay tw) now);
      [destruct (Qle_bool (GSAP.endTime tw) now)|].
    + specialize (IH (onComplete (GSAP.vars tw)
                        (onUpdate (GSAP.vars tw) (GSAP.progress tw now) s))).
      destruct (GSAP.renderAll _ _ _ _ _). apply IH. auto.
    + specialize (IH (onUpdate (GSAP.vars tw) (GSAP.progress tw now) s)).
      destruct (GSAP.renderAll _ _ _ _ _). apply IH. auto.
    + specialize (IH s). destruct (GSAP.renderAll _ _ _ _ _). by apply IH.
Qed.



End Rendering.

(** ** What the operations of main.js preserve *)

Lemma tick_unfold (now : Q) (st : Main.State) :
  Main.tick now st =
  Main.set_timeline
    {| GSAP.time := now;
       GSAP.tweens :=
         fst (GSAP.renderAll Main.onUpdate Main.onComplete now
                (GSAP.tweens (Main.timeline st)) st) |}
    (snd (GSAP.renderAll Main.onUpdate Main.onComplete now
            (GSAP.tweens (Main.timeline st)) st)).
Proof.
  unfold Main.tick, GSAP.tick. simpl.
  by destruct (GSAP.renderAll _ _ _ _ _).
Qed.

Lemma setModelOpacity_frame (eraId : string) (v : Q) (st : Main.State) :
  Main.models (Main.setModelOpacity eraId v st) = Main.models st /\
  Main.currentModelId (Main.setModelOpacity eraId v st)
  = Main.currentModelId st /\
  Main.timeline (Main.setModelOpacity eraId v st) = Main.timeline st.
Proof. unfold Main.setModelOpacity. by destruct (Main.models st !! eraId). Qed.

Lemma setModelVisible_lookup (eraId id : string) (v : bool) (st : Main.State) :
  Main.models (Main.setModelVisible eraId v st) !! id =
  if decide (eraId = id)
  then (fun m => Main.set_group (THREE.set_visible v (Main.group m)) m)
         <$> Main.models st !! id
  else Main.models st !! id.
Proof.
  unfold Main.setModelVisible. simpl. rewrite lookup_alter.
  by destruct (decide (eraId = id)) as [->|].
Qed.

(** The callbacks of the tweens keep the set of models, the current model
    and the timeline. *)
Lemma callbacks_keep_models (id : string) :
  (forall a q s, is_Some (Main.models s !! id) ->
                 is_Some (Main.models (Main.onUpdate a q s) !! id)) /\
  (forall a s, is_Some (Main.models s !! id) ->
               is_Some (Main.models (Main.onComplete a s) !! id)).
Proof.
  split.
  - intros [e|e] q s H; simpl;
      by rewrite (proj1 (setModelOpacity_frame _ _ _)).
  - intros [e|e] s H; simpl; rewrite (proj1 (setModelOpacity_frame _ _ _));
      [|done].
    rewrite setModelVisible_lookup. destruct (decide (e = id)); [|done].
    by apply fmap_is_Some.
Qed.

Lemma callbacks_keep_current (c : option string) :
  (forall a q s, Main.currentModelId s = c ->
                 Main.currentModelId (Main.onUpdate a q s) = c) /\
  (forall a s, Main.currentModelId s = c ->
               Main.currentModelId (Main.onComplete a s) = c).
Proof.
  split.
  - intros [e|e] q s H; simpl;
      by rewrite (proj1 (proj2 (setModelOpacity_frame _ _ _))).
  - intros [e|e] s H; simpl;
      by rewrite (proj1 (proj2 (setModelOpacity_frame _ _ _))).
Qed.

(** No callback of a tween makes a hidden model visible. *)
Lemma callbacks_keep_hidden (id : string) :
  (forall a q s, hidden id s -> hidden id (Main.onUpdate a q s)) /\
  (forall a s, hidden id s -> hidden id (Main.onComplete a s)).
Proof.
  unfold hidden. split.
  - intros [e|e] q s H; simpl;
      by rewrite (proj1 (setModelOpacity_frame _ _ _)).
  - intros [e|e] s (entry & Hl & Hv); simpl;
      rewrite (proj1 (setModelOpacity_frame _ _ _)); [|by eauto].
    rewrite setModelVisible_lookup. destruct (decide (e = id)); [|by eauto].
    rewrite Hl. simpl. by eexists.
Qed.

(** The completion of a fade-out hides its model. *)
Lemma fadeOut_complete_hides (id : string) (s : Main.State) :
  is_Some (Main.models s !! id) ->
  hidden id (Main.onComplete (Main.FadeOut id) s).
Proof.
  intros [entry Hl]. unfold hidden. simpl.
  rewrite (proj1 (setModelOpacity_frame _ _ _)), setModelVisible_lookup.
  rewrite decide_True by done. rewrite Hl. simpl. by eexists.
Qed.


Lemma tick_keeps_current (now : Q) (st : Main.State) :
  Main.currentModelId (Main.tick now st) = Main.currentModelId st.
Proof.
  rewrite tick_unfold. simpl.
  destruct (callbacks_keep_current (Main.currentModelId st)) as [Hu Hc].
  by apply (renderAll_invariant Main.onUpdate Main.onComplete
              (fun s => Main.currentModelId s = Main.currentModelId st) Hu Hc).
Qed.

Lemma tick_keeps_hidden (id : string) (now : Q) (st : Main.State) :
  hidden id st -> hidden id (Main.tick now st).
Proof.
  intros H. rewrite tick_unfold.
  destruct (callbacks_keep_hidden id) as [Hu Hc].
  by apply (renderAll_invariant Main.onUpdate Main.onComplete
              (hidden id) Hu Hc).
Qed.



(** ** showModel *)

Lemma showModel_current (eraId : string) (st : Main.State) :
  Main.currentModelId (Main.showModel eraId st) = Some eraId.
Proof.
  unfold Main.showModel. case_bool_decide as Hc; [exact Hc | reflexivity].
Qed.

(** The timeline after the "hide previous" step of [showModel]. *)
Lemma showModel_timeline (eraId : string) (st : Main.State) :
  Main.currentModelId st <> Some eraId ->
  Main.timeline (Main.showModel eraId st) =
  let tl1 :=
    match Main.truthy_id (Main.currentModelId st) with
    | Some cur =>
        match Main.models st !! cur with
        | Some _ => GSAP.to 0.3 0 (Main.FadeOut cur) (Main.timeline st)
        | None => Main.timeline st
        end
    | None => Main.timeline st
    end in
  match Main.models st !! eraId with
  | Some _ => GSAP.to 0.4 0.1 (Main.FadeIn eraId) tl1
  | None => tl1
  end.
Proof.
  intros Hne. unfold Main.showModel. rewrite bool_decide_eq_false_2 by done.
  destruct (Main.truthy_id (Main.currentModelId st)) as [cur|];
    [destruct (Main.models st !! cur) as [prev|]|]; simpl;
    destruct (Main.models st !! eraId); simpl;
    rewrite ?(proj2 (proj2 (setModelOpacity_frame _ _ _))); reflexivity.
Qed.

Lemma to_keeps {A : Type} (d dl : Q) (v : A) (tl : GSAP.Timeline A)
    (tw : GSAP.Tween A) :
  tw ∈ GSAP.tweens tl -> tw ∈ GSAP.tweens (GSAP.to d dl v tl).
Proof. intros H. simpl. apply elem_of_app. by left. Qed.

Lemma showModel_keeps_tweens (eraId : string) (st : Main.State)
    (tw : GSAP.Tween Main.FadeCallbacks) :
  tw ∈ GSAP.tweens (Main.timeline st) ->
  tw ∈ GSAP.tweens (Main.timeline (Main.showModel eraId st)).
Proof.
  intros Hin.
  destruct (decide (Main.currentModelId st = Some eraId)) as [Hc|Hc].
  - unfold Main.showModel. by rewrite bool_decide_eq_true_2.
  - rewrite showModel_timeline by done. simpl.
    destruct (Main.truthy_id (Main.currentModelId st)) as [cur|];
      [destruct (Main.models st !! cur)|];
      destruct (Main.models st !! eraId); auto using to_keeps.
Qed.

(** The models after [showModel]: only the visibility of the shown model
    may differ. *)
Lemma showModel_models (eraId : string) (st : Main.State) :
  Main.currentModelId st <> Some eraId ->
  Main.models (Main.showModel eraId st) =
  match Main.models st !! eraId with
  | Some _ =>
      alter (fun m => Main.set_group (THREE.set_visible true (Main.group m)) m)
            eraId (Main.models st)
  | None => Main.models st
  end.
Proof.
  intros Hne. unfold Main.showModel. rewrite bool_decide_eq_false_2 by done.
  destruct (Main.truthy_id (Main.currentModelId st)) as [cur|];
    [destruct (Main.models st !! cur) as [prev|]|]; simpl;
    destruct (Main.models st !! eraId); simpl;
    rewrite ?(proj1 (setModelOpacity_frame _ _ _)); reflexivity.
Qed.


(** Leaving the current model for another one schedules its fade-out at the
    timeline's current time. *)
Lemma showModel_schedules_fadeOut (cur other : string) (st : Main.State) :
  Main.currentModelId st = Some cur -> cur <> ""%string -> other <> cur ->
  is_Some (Main.models st !! cur) ->
  {| GSAP.created := GSAP.time (Main.timeline st); GSAP.duration := 0.3;
     GSAP.delay := 0; GSAP.vars := Main.FadeOut cur |}
  ∈ GSAP.tweens (Main.timeline (Main.showModel other st)).
Proof.
  intros Hc Hne Hother [entry Hl].
  rewrite showModel_timeline by congruence. rewrite Hc. simpl.
  destruct (String.eqb cur "") eqn:E; [by apply String.eqb_eq in E|].
  rewrite Hl.
  assert (Hin : {| GSAP.created := GSAP.time (Main.timeline st);
                   GSAP.duration := 0.3; GSAP.delay := 0;
                   GSAP.vars := Main.FadeOut cur |}
                ∈ GSAP.tweens (GSAP.to 0.3 0 (Main.FadeOut cur) (Main.timeline st))).
  { simpl. apply elem_of_app. right. apply list_elem_of_singleton. done. }
  destruct (Main.models st !! other); auto using to_keeps.
Qed.

(** ** Crossfade: a fade-out is never cancelled *)








(** ** Transparency is never cleared *)

Lemma still_transparent_refl (mats : gmap nat THREE.Material) :
  still_transparent mats mats.
Proof. intros i mat H1 H2. eauto. Qed.

Lemma still_transparent_trans (m1 m2 m3 : gmap nat THREE.Material) :
  still_transparent m1 m2 -> still_transparent m2 m3 ->
  still_transparent m1 m3.
Proof.
  intros H12 H23 i mat H1 H2.
  destruct (H12 i mat H1 H2) as (mat' & H1' & H2'). eauto.
Qed.

Lemma setGroupOpacity_transparent (g : THREE.Object3D) (v : Q)
    (mats : gmap nat THREE.Material) :
  still_transparent mats (setGroupOpacity g v mats).
Proof.
  intros i mat H1 H2. rewrite setGroupOpacity_lookup, H1.
  destruct (decide (i ∈ group_materials g)); simpl; eauto.
Qed.

Lemma setModelOpacity_transparent (eraId : string) (v : Q) (st : Main.State) :
  still_transparent (Main.materials st)
                    (Main.materials (Main.setModelOpacity eraId v st)).
Proof.
  unfold Main.setModelOpacity. destruct (Main.models st !! eraId); simpl.
  - apply setGroupOpacity_transparent.
  - apply still_transparent_refl.
Qed.

Lemma callbacks_transparent (mats : gmap nat THREE.Material) :
  (forall a q s, still_transparent mats (Main.materials s) ->
                 still_transparent mats (Main.materials (Main.onUpdate a q s))) /\
  (forall a s, still_transparent mats (Main.materials s) ->
               still_transparent mats (Main.materials (Main.onComplete a s))).
Proof.
  split.
  - intros [e|e] q s H; simpl;
      (eapply still_transparent_trans;
       [exact H | apply setModelOpacity_transparent]).
  - intros [e|e] s H; simpl;
      (eapply still_transparent_trans;
       [|apply setModelOpacity_transparent]); exact H.
Qed.

Lemma tick_transparent (now : Q) (st : Main.State) :
  still_transparent (Main.materials st) (Main.materials (Main.tick now st)).
Proof.
  rewrite tick_unfold. simpl.
  destruct (callbacks_transparent (Main.materials st)) as [Hu Hc].
  apply (renderAll_invariant Main.onUpdate Main.onComplete
           (fun s => still_transparent (Main.materials st) (Main.materials s))
           Hu Hc).
  apply still_transparent_refl.
Qed.

Lemma showModel_transparent (eraId : string) (st : Main.State) :
  still_transparent (Main.materials st)
                    (Main.materials (Main.showModel eraId st)).
Proof.
  unfold Main.showModel. case_bool_decide; [apply still_transparent_refl|].
  destruct (Main.truthy_id (Main.currentModelId st)) as [cur|];
    [destruct (Main.models st !! cur) as [prev|]|]; simpl;
    destruct (Main.models st !! eraId); simpl;
    solve [apply still_transparent_refl
          | apply (setModelOpacity_transparent eraId 0 st)
          | apply (setModelOpacity_transparent eraId 0
                     (Main.gsap_to 0.3 0 (Main.FadeOut cur) st))].
Qed.

Lemma run_op_transparent (op : MainOp) (st : Main.State) :
  still_transparent (Main.materials st) (Main.materials (run_op op st)).
Proof.
  destruct op as [now|eraId| |n p]; simpl.
  - apply tick_transparent.
  - apply showModel_transparent.
  - apply still_transparent_refl.
  - unfold Main.onSectionChange. case_bool_decide.
    + apply showModel_transparent.
    + apply still_transparent_refl.
Qed.

Lemma run_ops_transparent (ops : list MainOp) (st : Main.State) :
  still_transparent (Main.materials st) (Main.materials (run_ops ops st)).
Proof.
  revert st. induction ops as [|op ops IH]; intros st.
  - apply still_transparent_refl.
  - simpl. eapply still_transparent_trans; [apply run_op_transparent|].
    apply IH.
Qed.

(** C10. [setGroupOpacity(group, v)] gives every mesh material (each element
    of an array too) and every line-segments material in the subtree of the
    group the opacity [v] and the flag [transparent], keeps their other
    fields, and leaves every other material as it was; at the level of
    [main.js] it changes the store of materials only (models with their
    positions and visibility flags, current model and timeline are kept);
    and no later tick, [showModel], [hideAllModels] or section change clears
    a [transparent] flag. *)
Theorem setGroupOpacity_frame (g : THREE.Object3D) (v : Q)
    (mats : gmap nat THREE.Material) :
  (forall i mat,
     i ∈ group_materials g -> mats !! i = Some mat ->
     exists mat',
       setGroupOpacity g v mats !! i = Some mat' /\
       THREE.opacity mat' = v /\ THREE.transparent mat' = true /\
       THREE.color mat' = THREE.color mat /\
       THREE.depthWrite mat' = THREE.depthWrite mat) /\
  (forall i, i ∉ group_materials g ->
             setGroupOpacity g v mats !! i = mats !! i) /\
  (forall eraId st,
     Main.models (Main.setModelOpacity eraId v st) = Main.models st /\
     Main.currentModelId (Main.setModelOpacity eraId v st)
     = Main.currentModelId st /\
     Main.timeline (Main.setModelOpacity eraId v st) = Main.timeline st) /\
  (forall ops st,
     Main.materials st = setGroupOpacity g v mats ->
     forall i, i ∈ group_materials g -> is_Some (mats !! i) ->
     exists mat', Main.materials (run_ops ops st) !! i = Some mat' /\
                  THREE.transparent mat' = true).
Proof.
  assert (Htouched : forall i mat,
     i ∈ group_materials g -> mats !! i = Some mat ->
     exists mat',
       setGroupOpacity g v mats !! i = Some mat' /\
       THREE.opacity mat' = v /\ THREE.transparent mat' = true /\
       THREE.color mat' = THREE.color mat /\
       THREE.depthWrite mat' = THREE.depthWrite mat).
  { intros i mat Hin Hl. rewrite setGroupOpacity_lookup, Hl.
    rewrite decide_True by done. simpl. eexists. by repeat split. }
  split; [exact Htouched|]. split; [|split].
  - intros i Hin. rewrite setGroupOpacity_lookup. by rewrite decide_False.
  - intros eraId st. apply setModelOpacity_frame.
  - intros ops st Hst i Hin [mat Hl].
    destruct (Htouched i mat Hin Hl) as (mat' & Hl' & _ & Ht & _).
    apply (run_ops_transparent ops st i mat'); [by rewrite Hst | exact Ht].
Qed.

Lemma setGroupOpacity_frame_witness :
  exists mat',
    setGroupOpacity Example.mixedGroup 0.3 Example.mats !! 1%nat = Some mat' /\
    THREE.opacity mat' = 0.3 /\ THREE.transparent mat' = true /\
    THREE.color mat' = THREE.color Example.baseMaterial /\
    THREE.depthWrite mat' = THREE.depthWrite Example.baseMaterial.
Proof.
  destruct (setGroupOpacity_frame Example.mixedGroup 0.3 Example.mats)
    as [touched _].
  apply (touched 1%nat Example.baseMaterial).
  - vm_compute. apply list_elem_of_further, list_elem_of_here.
  - reflexivity.
Defined.

(** ** The section state machine *)

Lemma setActiveSection_active (sectionId : string) (w : World) :
  ScrollController.activeSection
    (fst (ScrollController.setActiveSection sectionId w)) = sectionId.
Proof.
  destruct w as [sc st]. unfold ScrollController.setActiveSection.
  destruct (String.eqb (ScrollController.activeSection sc) sectionId) eqn:E.
  - by apply String.eqb_eq in E.
  - by destruct (ScrollController.onSectionChangeCallback sc).
Qed.

Lemma setActiveSection_same (sectionId : string) (w : World) :
  ScrollController.activeSection (fst w) = sectionId ->
  ScrollController.setActiveSection sectionId w = w.
Proof.
  destruct w as [sc st]. simpl. intros <-.
  unfold ScrollController.setActiveSection. by rewrite String.eqb_refl.
Qed.

(** A committed transition: the observer installed by [main.js] is called
    once with the new and the previous identifier. *)
Lemma setActiveSection_changes (sectionId : string) (w : World) :
  ScrollController.onSectionChangeCallback (fst w) = Some Main.onSectionChange ->
  ScrollController.activeSection (fst w) <> sectionId ->
  ScrollController.setActiveSection sectionId w =
  ({| ScrollController.activeSection := sectionId;
      ScrollController.sectionModels := ScrollController.sectionModels (fst w);
      ScrollController.onSectionChangeCallback :=
        ScrollController.onSectionChangeCallback (fst w);
      ScrollController.notified :=
        ScrollController.notified (fst w) ++
        [(sectionId, ScrollController.activeSection (fst w))] |},
   Main.onSectionChange sectionId (ScrollController.activeSection (fst w))
                        (snd w)).
Proof.
  destruct w as [sc st]. simpl. intros Hcb Hne.
  unfold ScrollController.setActiveSection.
  destruct (String.eqb (ScrollController.activeSection sc) sectionId) eqn:E.
  - by apply String.eqb_eq in E.
  - by rewrite Hcb.
Qed.

Lemma fadeIns_app (eraId : string)
    (l1 l2 : list (GSAP.Tween Main.FadeCallbacks)) :
  fadeIns eraId (l1 ++ l2) = fadeIns eraId l1 ++ fadeIns eraId l2.
Proof. apply filter_app. Qed.

(** [showModel] of a model that exists and is not the current one schedules
    exactly one fade-in of it. *)
Lemma showModel_one_fadeIn (eraId : string) (st : Main.State) :
  Main.currentModelId st <> Some eraId ->
  is_Some (Main.models st !! eraId) ->
  length (fadeIns eraId
            (GSAP.tweens (Main.timeline (Main.showModel eraId st))))
  = S (length (fadeIns eraId (GSAP.tweens (Main.timeline st)))).
Proof.
  intros Hne [entry Hl]. rewrite showModel_timeline by done. rewrite Hl.
  assert (Hout : forall cur,
            Main.currentModelId st = Some cur ->
            fadeIns eraId
              [{| GSAP.created := GSAP.time (Main.timeline st);
                  GSAP.duration := 0.3; GSAP.delay := 0;
                  GSAP.vars := Main.FadeOut cur |}] = []).
  { intros cur _. unfold fadeIns. by rewrite filter_cons_False. }
  assert (Hin : forall c,
            length (fadeIns eraId
              [{| GSAP.created := c; GSAP.duration := 0.4; GSAP.delay := 0.1;
                  GSAP.vars := Main.FadeIn eraId |}]) = 1%nat).
  { intros c. unfold fadeIns. by rewrite filter_cons_True. }
  unfold Main.truthy_id.
  destruct (Main.currentModelId st) as [cur|] eqn:Hc;
    [destruct (String.eqb cur ""); [|destruct (Main.models st !! cur)]|];
    simpl; rewrite !fadeIns_app, ?length_app, ?Hin, ?(Hout cur eq_refl);
    simpl; lia.
Qed.

(** C5. An enter event carrying the id of the section that is already active
    changes nothing.  So, when a section with a model that is not yet shown
    is entered twice in a row, the observer is notified once and one fade-in
    of its model is scheduled, both by the first event. *)
Theorem enter_twice_is_enter_once (w : World) (sectionId : string) :
  enter sectionId (enter sectionId w) = enter sectionId w /\
  (ScrollController.onSectionChangeCallback (fst w) = Some Main.onSectionChange ->
   ScrollController.activeSection (fst w) <> sectionId ->
   sectionId ∈ Main.ERA_ORDER ->
   is_Some (Main.models (snd w) !! sectionId) ->
   Main.currentModelId (snd w) <> Some sectionId ->
   let w2 := enter sectionId (enter sectionId w) in
   ScrollController.notified (fst w2) =
   ScrollController.notified (fst w) ++
   [(sectionId, ScrollController.activeSection (fst w))] /\
   length (fadeIns sectionId (GSAP.tweens (Main.timeline (snd w2))))
   = S (length (fadeIns sectionId (GSAP.tweens (Main.timeline (snd w)))))).
Proof.
  assert (Hsame : enter sectionId (enter sectionId w) = enter sectionId w).
  { unfold enter. simpl. apply setActiveSection_same, setActiveSection_active. }
  split; [exact Hsame|].
  intros Hcb Hne Hera Hm Hcur w2. unfold w2. rewrite Hsame.
  unfold enter. simpl. rewrite setActiveSection_changes by done. simpl.
  split; [reflexivity|].
  unfold Main.onSectionChange. rewrite bool_decide_eq_true_2 by done.
  by apply showModel_one_fadeIn.
Qed.

Lemma enter_twice_is_enter_once_witness :
  let w2 := enter "wheel" (enter "wheel" Example.started) in
  ScrollController.notified (fst w2) =
  ScrollController.notified (fst Example.started) ++
  [("wheel"%string, ScrollController.activeSection (fst Example.started))] /\
  length (fadeIns "wheel" (GSAP.tweens (Main.timeline (snd w2))))
  = S (length (fadeIns "wheel"
                 (GSAP.tweens (Main.timeline (snd Example.started))))).
Proof.
  destruct (enter_twice_is_enter_once Example.started "wheel") as [_ once].
  apply once.
  - reflexivity.
  - discriminate.
  - apply list_elem_of_here.
  - vm_compute. eauto.
  - discriminate.
Defined.

(** ** Registration and initialisation *)

(** [registerModel] writes [sectionModels] only, and there only the entry of
    [sectionId]. *)
Lemma registerModel_frame (sectionId : string)
    (modelData : ScrollController.ModelData)
    (st : ScrollController.State Main.State) :
  let st' := snd (ScrollController.registerModel sectionId modelData st) in
  ScrollController.sectionModels st' !! sectionId
  = Some match ScrollController.parts modelData with
         | Some ps =>
             {| ScrollController.parts := Some (snd (setupExplodedView ps)) |}
         | None => modelData
         end /\
  (forall other, other <> sectionId ->
     ScrollController.sectionModels st' !! other
     = ScrollController.sectionModels st !! other) /\
  ScrollController.activeSection st' = ScrollController.activeSection st /\
  ScrollController.onSectionChangeCallback st'
  = ScrollController.onSectionChangeCallback st /\
  ScrollController.notified st' = ScrollController.notified st.
Proof.
  unfold ScrollController.registerModel.
  destruct (ScrollController.parts modelData) as [ps|].
  - destruct (setupExplodedView ps) as [c ps']. simpl.
    split; [by rewrite lookup_insert_eq|]. split; [|done].
    intros other Hne. by rewrite !lookup_insert_ne.
  - simpl. split; [by rewrite lookup_insert_eq|]. split; [|done].
    intros other Hne. by rewrite lookup_insert_ne.
Qed.

Lemma buildModel_controller (eraId : string) (entry : Main.ModelEntry)
    (w : World) :
  let w' := snd (buildModel eraId entry w) in
  ScrollController.activeSection (fst w') = ScrollController.activeSection (fst w) /\
  ScrollController.onSectionChangeCallback (fst w')
  = ScrollController.onSectionChangeCallback (fst w) /\
  ScrollController.notified (fst w') = ScrollController.notified (fst w).
Proof.
  destruct w as [sc st]. unfold buildModel.
  pose proof (registerModel_frame eraId
                {| ScrollController.parts := Some (Main.parts entry) |} sc)
    as (_ & _ & Ha & Hc & Hn).
  destruct (ScrollController.registerModel _ _ sc) as [[|e] sc1];
    simpl in *; [|done].
  destruct (ScrollController.sectionModels sc1 !! eraId) as [[[ps1|]]|];
    simpl; [|done|done].
  by destruct (setupExplodedView ps1).
Qed.

Lemma buildModels_from_controller (eras : list string)
    (creators : gmap string Main.ModelEntry) (w : World) :
  let w' := snd (buildModels_from eras creators w) in
  ScrollController.activeSection (fst w') = ScrollController.activeSection (fst w) /\
  ScrollController.onSectionChangeCallback (fst w')
  = ScrollController.onSectionChangeCallback (fst w) /\
  ScrollController.notified (fst w') = ScrollController.notified (fst w).
Proof.
  revert w. induction eras as [|eraId eras IH]; intros w; simpl; [done|].
  destruct (creators !! eraId) as [entry|]; [|apply IH].
  pose proof (buildModel_controller eraId entry w) as (Ha & Hc & Hn).
  destruct (buildModel eraId entry w) as [[|e] w1]; simpl in *; [|done].
  destruct (IH w1) as (Ha' & Hc' & Hn'). simpl in *.
  by rewrite Ha', Hc', Hn'.
Qed.

(** After [initApp] the active section is still ["hero"], the observer of
    [main.js] is installed and has not been called. *)
Lemma initApp_controller (creators : gmap string Main.ModelEntry)
    (mats : gmap nat THREE.Material) (w : World) :
  initApp creators mats = (Normal, w) ->
  ScrollController.activeSection (fst w) = "hero"%string /\
  ScrollController.onSectionChangeCallback (fst w) = Some Main.onSectionChange /\
  ScrollController.notified (fst w) = [].
Proof.
  unfold initApp, buildModels.
  pose proof (buildModels_from_controller Main.ERA_ORDER creators
                (ScrollController.initial, Main.initial mats))
    as (Ha & Hc & Hn).
  destruct (buildModels_from _ _ _) as [[|e] [sc st]]; simpl in *; [|done].
  intros [= <-]. simpl. by rewrite Ha, Hn.
Qed.

(** C2 (as amended). The initial state of the section state machine carries
    the identifier ["hero"]: [getActiveSection()] returns ["hero"] before any
    enter event, and the first transition into a section [id] invokes the
    observer with [(id, "hero")]. *)
Theorem initial_section_is_hero :
  ScrollController.getActiveSection (@ScrollController.initial Main.State)
  = "hero"%string /\
  forall creators mats w sectionId,
    initApp creators mats = (Normal, w) ->
    ScrollController.getActiveSection (fst w) = "hero"%string /\
    (sectionId <> "hero"%string ->
     ScrollController.notified (fst (enter sectionId w))
     = [(sectionId, "hero"%string)] /\
     ScrollController.getActiveSection (fst (enter sectionId w)) = sectionId).
Proof.
  split; [reflexivity|].
  intros creators mats w sectionId Hinit.
  destruct (initApp_controller creators mats w Hinit) as (Ha & Hc & Hn).
  split; [exact Ha|]. intros Hne.
  unfold enter. simpl. rewrite setActiveSection_changes by congruence.
  simpl. by rewrite Ha, Hn.
Qed.

Lemma initial_section_is_hero_witness :
  ScrollController.getActiveSection (fst Example.started) = "hero"%string /\
  ScrollController.notified (fst (enter "steam" Example.started))
  = [("steam"%string, "hero"%string)] /\
  ScrollController.getActiveSection (fst (enter "steam" Example.started))
  = "steam"%string.
Proof.
  destruct initial_section_is_hero as [_ first].
  destruct (first Example.creators Example.mats Example.started "steam"%string)
    as [Ha Hn].
  - reflexivity.
  - split; [exact Ha|]. apply Hn. discriminate.
Defined.

(** C2 as stated fails: the identifier of the initial state, and the
    previous identifier the observer receives on the first transition, is
    ["hero"], not ["idle"]. *)
Lemma initial_section_counterexample :
  ScrollController.getActiveSection (fst Example.started) <> "idle"%string /\
  ScrollController.notified (fst (enter "steam" Example.started))
  <> [("steam"%string, "idle"%string)].
Proof. split; vm_compute; discriminate. Qed.

(** C6 (as amended). [registerModel(sectionId, modelData)] always records
    the model under [sectionId], with its parts as [setupExplodedView] left
    them; it leaves the entries of the other sections, the active section
    and the observer as they were; and with an empty part list it completes
    normally and does nothing more. *)
Theorem registerModel_records (sectionId : string)
    (modelData : ScrollController.ModelData)
    (st : ScrollController.State Main.State) :
  let r := ScrollController.registerModel sectionId modelData st in
  ScrollController.sectionModels (snd r) !! sectionId
  = Some match ScrollController.parts modelData with
         | Some ps =>
             {| ScrollController.parts := Some (snd (setupExplodedView ps)) |}
         | None => modelData
         end /\
  (forall other, other <> sectionId ->
     ScrollController.sectionModels (snd r) !! other
     = ScrollController.sectionModels st !! other) /\
  ScrollController.activeSection (snd r) = ScrollController.activeSection st /\
  ScrollController.onSectionChangeCallback (snd r)
  = ScrollController.onSectionChangeCallback st /\
  ScrollController.notified (snd r) = ScrollController.notified st /\
  (ScrollController.parts modelData = Some [] ->
   r = (Normal,
        ScrollController.set_sectionModels
          (<[sectionId := modelData]> (ScrollController.sectionModels st)) st)).
Proof.
  intros r.
  destruct (registerModel_frame sectionId modelData st)
    as (H1 & H2 & H3 & H4 & H5).
  do 5 (split; [assumption|]).
  intros Hempty. unfold r, ScrollController.registerModel.
  rewrite Hempty. simpl. rewrite insert_insert_eq.
  destruct modelData as [ps]. simpl in Hempty. by subst ps.
Qed.

Lemma registerModel_records_witness :
  ScrollController.registerModel "wheel" {| ScrollController.parts := Some [] |}
    (@ScrollController.initial Main.State)
  = (Normal,
     ScrollController.set_sectionModels
       (<["wheel"%string := {| ScrollController.parts := Some [] |}]>
          (ScrollController.sectionModels (@ScrollController.initial Main.State)))
       ScrollController.initial).
Proof.
  destruct (registerModel_records "wheel"
              {| ScrollController.parts := Some [] |}
              (@ScrollController.initial Main.State))
    as (_ & _ & _ & _ & _ & empty).
  apply empty. reflexivity.
Defined.

(** C6 as stated fails: registering an empty part list completes normally
    but changes the registry; a model without [parts], and a part without
    [explodeDir], make the call throw, after the entry has been stored. *)
Lemma registerModel_counterexample :
  let st0 := @ScrollController.initial Main.State in
  let empty := ScrollController.registerModel "wheel"
                 {| ScrollController.parts := Some [] |} st0 in
  let missing := ScrollController.registerModel "wheel"
                   {| ScrollController.parts := None |} st0 in
  let malformed := ScrollController.registerModel "wheel"
                     {| ScrollController.parts := Some [Example.noDirection] |}
                     st0 in
  ScrollController.sectionModels st0 !! "wheel"%string = None /\
  fst empty = Normal /\
  ScrollController.sectionModels (snd empty) !! "wheel"%string
  = Some {| ScrollController.parts := Some [] |} /\
  fst missing = Throw TypeError /\
  is_Some (ScrollController.sectionModels (snd missing) !! "wheel"%string) /\
  fst malformed = Throw TypeError /\
  is_Some (ScrollController.sectionModels (snd malformed) !! "wheel"%string).
Proof. vm_compute. repeat split; eauto. Qed.

(** ** Unknown section identifiers *)

Lemma onUpdate_unregistered (sectionId : string) (progress : Q)
    (st : ScrollController.State Main.State) :
  ScrollController.sectionModels st !! sectionId = None ->
  ScrollController.onUpdate sectionId progress st = st.
Proof. intros H. unfold ScrollController.onUpdate. by rewrite H. Qed.

(** C3 (as amended). An enter event with an identifier that is not one of
    the eras is handled like the hero section: the identifier becomes the
    active section, the observer is notified, every model is made invisible
    at once and no model is current any more; the registry, the materials
    (so every opacity) and the timeline are kept.  An update event for a
    section without a registered model changes nothing. *)
Theorem unknown_section_hides_all (w : World) (sectionId : string) :
  ScrollController.onSectionChangeCallback (fst w) = Some Main.onSectionChange ->
  sectionId ∉ Main.ERA_ORDER ->
  ScrollController.activeSection (fst w) <> sectionId ->
  let w' := enter sectionId w in
  (ScrollController.activeSection (fst w') = sectionId /\
   ScrollController.notified (fst w') =
   ScrollController.notified (fst w) ++
   [(sectionId, ScrollController.activeSection (fst w))] /\
   ScrollController.sectionModels (fst w') = ScrollController.sectionModels (fst w)) /\
  (Main.models (snd w') =
   (fun m => Main.set_group (THREE.set_visible false (Main.group m)) m)
     <$> Main.models (snd w) /\
   Main.currentModelId (snd w') = None /\
   Main.materials (snd w') = Main.materials (snd w) /\
   Main.timeline (snd w') = Main.timeline (snd w)) /\
  (forall progress,
     ScrollController.sectionModels (fst w) !! sectionId = None ->
     ScrollController.handle (ScrollController.Update sectionId progress) w = w).
Proof.
  intros Hcb Hunknown Hne w'. unfold w', enter. simpl.
  rewrite setActiveSection_changes by done. simpl.
  unfold Main.onSectionChange. rewrite bool_decide_eq_false_2 by done.
  split; [done|]. split; [done|].
  intros progress Hnone. rewrite onUpdate_unregistered by done.
  by destruct w.
Qed.

Lemma atlantis_unknown : "atlantis"%string ∉ Main.ERA_ORDER.
Proof.
  unfold Main.ERA_ORDER.
  repeat (apply not_elem_of_cons; split; [discriminate|]).
  apply not_elem_of_nil.
Qed.

Lemma unknown_section_hides_all_witness :
  Main.models (snd (enter "atlantis" Example.wheelShown)) =
  (fun m => Main.set_group (THREE.set_visible false (Main.group m)) m)
    <$> Main.models (snd Example.wheelShown) /\
  Main.currentModelId (snd (enter "atlantis" Example.wheelShown)) = None /\
  Main.materials (snd (enter "atlantis" Example.wheelShown))
  = Main.materials (snd Example.wheelShown) /\
  Main.timeline (snd (enter "atlantis" Example.wheelShown))
  = Main.timeline (snd Example.wheelShown).
Proof.
  destruct (unknown_section_hides_all Example.wheelShown "atlantis")
    as (_ & scene & _).
  - reflexivity.
  - exact atlantis_unknown.
  - discriminate.
  - exact scene.
Defined.

(** C3 as stated fails: while the wheel is shown, an enter event with the
    unknown identifier ["atlantis"] replaces the active section and hides the
    wheel. *)
Lemma unknown_section_counterexample :
  let before := Example.wheelShown in
  let after := enter "atlantis" before in
  ("atlantis"%string ∉ Main.ERA_ORDER) /\
  ScrollController.activeSection (fst before) = "wheel"%string /\
  ScrollController.activeSection (fst after) = "atlantis"%string /\
  (fun m => THREE.visible (Main.group m))
    <$> Main.models (snd before) !! "wheel"%string = Some true /\
  (fun m => THREE.visible (Main.group m))
    <$> Main.models (snd after) !! "wheel"%string = Some false.
Proof.
  split; [exact atlantis_unknown|].
  vm_compute. repeat split; reflexivity.
Qed.

(** * Further properties of the code *)

(** ** The exploded view: progress, bounds and failures *)

Lemma updateExplodedView_part_latest (a b : Q) (p : Part) :
  updateExplodedView_part b (updateExplodedView_part a p)
  = updateExplodedView_part b p.
Proof.
  unfold updateExplodedView_part.
  destruct (mesh p) as [m|] eqn:Hm, (originalPos p) as [o|] eqn:Ho,
           (explodedPos p) as [e|] eqn:He; simpl;
    rewrite ?Hm, ?Ho, ?He; reflexivity.
Qed.

Lemma updateExplodedView_part_fields (a : Q) (p : Part) :
  originalPos (updateExplodedView_part a p) = originalPos p /\
  explodedPos (updateExplodedView_part a p) = explodedPos p /\
  explodeDir (updateExplodedView_part a p) = explodeDir p.
Proof.
  unfold updateExplodedView_part.
  destruct (mesh p) as [m|] eqn:Hm, (originalPos p) as [o|] eqn:Ho,
           (explodedPos p) as [e|] eqn:He; simpl; rewrite ?Ho, ?He; done.
Qed.

Lemma updateExplodedView_twice (parts : list Part) (t t' : Q) :
  updateExplodedView (updateExplodedView parts t) t'
  = updateExplodedView parts t'.
Proof.
  unfold updateExplodedView. rewrite map_map. apply map_ext. intros p.
  apply updateExplodedView_part_latest.
Qed.

(** X1. The positions [updateExplodedView] leaves depend on the latest
    progress only, not on the progress values applied before: the function
    reads [originalPos] and [explodedPos] and never changes them (nor
    [explodeDir]).  This holds for every parts list, also for parts it
    skips. *)
Theorem updateExplodedView_latest_wins (parts : list Part) (t t' : Q) :
  updateExplodedView (updateExplodedView parts t) t'
  = updateExplodedView parts t' /\
  Forall2 (fun p p' => originalPos p' = originalPos p /\
                       explodedPos p' = explodedPos p /\
                       explodeDir p' = explodeDir p)
          parts (updateExplodedView parts t).
Proof.
  split; [apply updateExplodedView_twice|]. unfold updateExplodedView.
  induction parts as [|p ps IH]; simpl; constructor; [|exact IH].
  apply updateExplodedView_part_fields.
Qed.







Lemma setupExplodedView_part_not_ready (p : Part) :
  ~ setup_ready p ->
  exists p', setupExplodedView_part p = (Throw TypeError, p') /\
             mesh p' = mesh p /\ explodeDir p' = explodeDir p /\
             explodedPos p' = explodedPos p.
Proof.
  intros Hnot. destruct p as [[m|] [o|] [d|] e];
    cbv -[THREE.add THREE.clone]; cbv -[THREE.add THREE.clone] in Hnot;
    try (exfalso; apply Hnot; split; eauto; fail);
    eexists; (split; [reflexivity|]); done.
Qed.

Lemma setup_ready_dec (p : Part) : {setup_ready p} + {~ setup_ready p}.
Proof.
  destruct p as [[m|] [o|] [d|] e]; unfold setup_ready; simpl;
    solve [ left; split; eauto
          | right; intros [[? H] _]; discriminate H
          | right; intros [_ [[? H]|[? H]]]; discriminate H ].
Qed.

(** The parts before the first part that is not ready are set up, that
    part throws, the rest is untouched. *)
Lemma setupExplodedView_partial (good : list Part) (bad : Part)
    (rest : list Part) :
  Forall setup_ready good -> ~ setup_ready bad ->
  exists good' bad',
    setupExplodedView (good ++ bad :: rest)
    = (Throw TypeError, good' ++ bad' :: rest) /\
    Forall2 set_up good good' /\
    mesh bad' = mesh bad /\ explodeDir bad' = explodeDir bad /\
    explodedPos bad' = explodedPos bad.
Proof.
  intros Hgood Hbad. unfold setupExplodedView.
  induction Hgood as [|p ps Hp _ (good' & bad' & Hrun & Hrel & Hkeep)].
  - destruct (setupExplodedView_part_not_ready bad Hbad) as (bad' & Hb & Hk).
    exists [], bad'. simpl. rewrite Hb.
    split; [reflexivity|]. split; [constructor | exact Hk].
  - destruct (setupExplodedView_part_ready p Hp) as (p' & Hp' & Hrel').
    exists (p' :: good'), bad'. simpl. rewrite Hp', Hrun.
    split; [reflexivity|]. split; [by constructor | exact Hkeep].
Qed.

Lemma setupExplodedView_normal_iff (parts : list Part) :
  fst (setupExplodedView parts) = Normal <-> Forall setup_ready parts.
Proof.
  split.
  - intros Hnormal. induction parts as [|p ps IH]; [constructor|].
    destruct (setup_ready_dec p) as [Hp|Hp].
    + constructor; [exact Hp|]. apply IH.
      destruct (setupExplodedView_part_ready p Hp) as (p' & Hp' & _).
      unfold setupExplodedView in *. simpl in Hnormal. rewrite Hp' in Hnormal.
      by destruct (forEach setupExplodedView_part ps).
    + destruct (setupExplodedView_partial [] p ps (Forall_nil_2 _) Hp)
        as (good' & bad' & Hrun & _).
      simpl in Hrun. rewrite Hrun in Hnormal. discriminate Hnormal.
  - intros Hall. unfold setupExplodedView.
    induction Hall as [|p ps Hp _ IH]; [reflexivity|].
    destruct (setupExplodedView_part_ready p Hp) as (p' & Hp' & _).
    simpl. rewrite Hp'.
    by destruct (forEach setupExplodedView_part ps).
Qed.

(** A call that completes normally leaves every part set up. *)
Lemma setupExplodedView_normal_settled (parts parts' : list Part) :
  setupExplodedView parts = (Normal, parts') -> Forall settled parts'.
Proof.
  unfold setupExplodedView. revert parts'.
  induction parts as [|p ps IH]; intros parts' Hrun; simpl in Hrun.
  - injection Hrun as <-. constructor.
  - destruct (setupExplodedView_part p) as [[|e] p'] eqn:Hp; [|done].
    destruct (forEach setupExplodedView_part ps) as [c ps'] eqn:Hps.
    injection Hrun as -> <-. constructor; [|by apply IH].
    destruct (setup_ready_dec p) as [Hr|Hr].
    + destruct (setupExplodedView_part_ready p Hr) as (p'' & Hp'' & Hrel).
      rewrite Hp in Hp''. injection Hp'' as <-. by eapply set_up_settled.
    + destruct (setupExplodedView_part_not_ready p Hr) as (p'' & Hp'' & _).
      rewrite Hp in Hp''. discriminate Hp''.
Qed.

(** X3. [setupExplodedView] throws exactly when some part has no
    [explodeDir], or has neither [originalPos] nor mesh.  When it throws, it
    is a [TypeError]; the parts before the first such part have been set
    up, that part keeps its mesh, [explodeDir] and [explodedPos], and the
    parts after it have not been touched. *)
Theorem setupExplodedView_throws (parts : list Part) :
  (fst (setupExplodedView parts) = Normal <-> Forall setup_ready parts) /\
  (forall good bad rest,
     parts = good ++ bad :: rest ->
     Forall setup_ready good -> ~ setup_ready bad ->
     exists good' bad',
       setupExplodedView parts = (Throw TypeError, good' ++ bad' :: rest) /\
       Forall2 set_up good good' /\
       mesh bad' = mesh bad /\ explodeDir bad' = explodeDir bad /\
       explodedPos bad' = explodedPos bad).
Proof.
  split; [apply setupExplodedView_normal_iff|].
  intros good bad rest -> Hgood Hbad. by apply setupExplodedView_partial.
Qed.

Lemma setupExplodedView_throws_witness :
  exists good' bad',
    setupExplodedView [Example.rim; Example.noDirection; Example.hubCap]
    = (Throw TypeError, good' ++ bad' :: [Example.hubCap]) /\
    Forall2 set_up [Example.rim] good' /\
    mesh bad' = mesh Example.noDirection /\
    explodeDir bad' = explodeDir Example.noDirection /\
    explodedPos bad' = explodedPos Example.noDirection.
Proof.
  destruct (setupExplodedView_throws
              [Example.rim; Example.noDirection; Example.hubCap])
    as [_ partial].
  apply (partial [Example.rim] Example.noDirection [Example.hubCap]).
  - reflexivity.
  - repeat constructor; simpl; eauto.
  - intros [[d Hd] _]. discriminate Hd.
Defined.

(** ** Group opacity: composition *)

Lemma fade_material_last (v1 v2 : Q) (o : option THREE.Material) :
  fade_material v2 <$> (fade_material v1 <$> o) = fade_material v2 <$> o.
Proof. by destruct o. Qed.

(** X4. Of two [setGroupOpacity] calls on the same group the later one
    wins: the result is that of the later call alone.  A call neither
    creates nor removes a material. *)
Theorem setGroupOpacity_last_wins (g : THREE.Object3D) (v1 v2 : Q)
    (mats : gmap nat THREE.Material) :
  setGroupOpacity g v2 (setGroupOpacity g v1 mats) = setGroupOpacity g v2 mats /\
  dom (setGroupOpacity g v1 mats) = dom mats.
Proof.
  split.
  - apply map_eq. intros i. rewrite !setGroupOpacity_lookup.
    destruct (decide (i ∈ group_materials g)); [|reflexivity].
    apply fade_material_last.
  - apply set_eq. intros i. rewrite !elem_of_dom, setGroupOpacity_lookup.
    destruct (decide (i ∈ group_materials g)); [|reflexivity].
    by rewrite fmap_is_Some.
Qed.

(** ** The registry: completion of a registration, update events *)

(** X5. [registerModel] completes normally exactly when the model has a
    [parts] list of which every part has an [explodeDir] and an
    [originalPos] or a mesh; otherwise it throws.  Registering again under
    the same id replaces the entry: the registry is as if only the second
    registration had been made. *)
Theorem registerModel_completion (sectionId : string)
    (modelData modelData' : ScrollController.ModelData)
    (st : ScrollController.State Main.State) :
  (fst (ScrollController.registerModel sectionId modelData st) = Normal <->
   exists ps, ScrollController.parts modelData = Some ps /\
              Forall setup_ready ps) /\
  snd (ScrollController.registerModel sectionId modelData'
         (snd (ScrollController.registerModel sectionId modelData st)))
  = snd (ScrollController.registerModel sectionId modelData' st).
Proof.
  split.
  - unfold ScrollController.registerModel.
    destruct (ScrollController.parts modelData) as [ps|]; simpl.
    + pose proof (setupExplodedView_normal_iff ps) as Hiff.
      destruct (setupExplodedView ps) as [c ps']. simpl in *.
      split.
      * intros Hc. exists ps. split; [reflexivity | by apply Hiff].
      * intros (ps0 & [= <-] & Hall). by apply Hiff.
    + split; [done|]. by intros (ps & Hps & _).
  - unfold ScrollController.registerModel.
    destruct (ScrollController.parts modelData) as [ps|],
             (ScrollController.parts modelData') as [qs|]; simpl;
      repeat (match goal with
              | |- context [setupExplodedView ?l] =>
                  destruct (setupExplodedView l) as [? ?]
              end); simpl;
      unfold ScrollController.set_sectionModels; simpl;
      rewrite !insert_insert_eq; reflexivity.
Qed.


(** ** What initialisation establishes *)

Lemma hero_unknown : "hero"%string ∉ Main.ERA_ORDER.
Proof.
  unfold Main.ERA_ORDER.
  repeat (apply not_elem_of_cons; split; [discriminate|]).
  apply not_elem_of_nil.
Qed.

(** What one step of [buildModels] keeps and establishes. *)
Lemma buildModel_main (eraId : string) (entry : Main.ModelEntry) (w : World) :
  let r := buildModel eraId entry w in
  (Main.materials (snd (snd r)) = Main.materials (snd w) /\
   Main.timeline (snd (snd r)) = Main.timeline (snd w) /\
   Main.currentModelId (snd (snd r)) = Main.currentModelId (snd w)) /\
  (all_hidden (snd w) -> all_hidden (snd (snd r))) /\
  (forall id, is_Some (Main.models (snd (snd r)) !! id) ->
              id = eraId \/ is_Some (Main.models (snd w) !! id)) /\
  (fst r = Normal -> registered_alike w -> registered_alike (snd r)).
Proof.
  destruct w as [sc st]. unfold buildModel.
  pose proof (registerModel_frame eraId
                {| ScrollController.parts := Some (Main.parts entry) |} sc)
    as (Hl & Hother & _). simpl in Hl.
  destruct (ScrollController.registerModel _ _ sc) as [[|e] sc1];
    simpl in Hl, Hother.
  - rewrite Hl.
    destruct (setupExplodedView (snd (setupExplodedView (Main.parts entry))))
      as [c ps2] eqn:Hsecond. simpl.
    split; [done|]. split; [|split].
    + intros Hhid id e' Hid. simpl in Hid. destruct (decide (eraId = id)) as [->|Hne].
      * rewrite lookup_insert_eq in Hid. by injection Hid as <-.
      * rewrite !lookup_insert_ne in Hid by done. by eapply Hhid.
    + intros id Hid. simpl in Hid.
      destruct (decide (eraId = id)) as [->|Hne]; [by left|].
      right. by rewrite !lookup_insert_ne in Hid.
    + intros -> Halike id. specialize (Halike id). simpl in *.
      destruct (decide (eraId = id)) as [->|Hne].
      * rewrite !lookup_insert_eq. simpl. split; [reflexivity|].
        by eapply setupExplodedView_normal_settled.
      * rewrite !lookup_insert_ne by done. by rewrite Hother.
  - simpl. split; [done|]. split; [|split; [|done]].
    + intros Hhid id e' Hid. simpl in Hid. destruct (decide (eraId = id)) as [->|Hne].
      * rewrite lookup_insert_eq in Hid. by injection Hid as <-.
      * rewrite lookup_insert_ne in Hid by done. by eapply Hhid.
    + intros id Hid. simpl in Hid.
      destruct (decide (eraId = id)) as [->|Hne]; [by left|].
      right. by rewrite lookup_insert_ne in Hid.
Qed.

Lemma buildModels_from_main (eras : list string)
    (creators : gmap string Main.ModelEntry) (w : World) :
  let r := buildModels_from eras creators w in
  (Main.materials (snd (snd r)) = Main.materials (snd w) /\
   Main.timeline (snd (snd r)) = Main.timeline (snd w) /\
   Main.currentModelId (snd (snd r)) = Main.currentModelId (snd w)) /\
  (all_hidden (snd w) -> all_hidden (snd (snd r))) /\
  (forall id, is_Some (Main.models (snd (snd r)) !! id) ->
              (id ∈ eras /\ is_Some (creators !! id)) \/
              is_Some (Main.models (snd w) !! id)) /\
  (fst r = Normal -> registered_alike w -> registered_alike (snd r)).
Proof.
  revert w. induction eras as [|eraId eras IH]; intros w; simpl.
  - split; [done|]. split; [done|]. split; [|done]. intros id H. by right.
  - destruct (creators !! eraId) as [entry|] eqn:Hcreator.
    + pose proof (buildModel_main eraId entry w) as (Hk & Hh & Hd & Ha).
      destruct (buildModel eraId entry w) as [[|e] w1]; simpl in *.
      * destruct (IH w1) as (Hk' & Hh' & Hd' & Ha').
        destruct Hk as (K1 & K2 & K3), Hk' as (K1' & K2' & K3').
        split; [by rewrite K1', K2', K3'|]. split; [by auto|]. split.
        -- intros id Hid. destruct (Hd' id Hid) as [[Hin Hc]|Hprev].
           ++ left. split; [by apply elem_of_cons; right | exact Hc].
           ++ destruct (Hd id Hprev) as [->|Hw]; [|by right].
              left. split; [by apply elem_of_cons; left | by rewrite Hcreator].
        -- intros Hn Halike. by auto.
      * split; [done|]. split; [done|]. split; [|done].
        intros id Hid. destruct (Hd id Hid) as [->|Hw]; [|by right].
        left. split; [by apply elem_of_cons; left | by rewrite Hcreator].
    + destruct (IH w) as (Hk' & Hh' & Hd' & Ha').
      split; [done|]. split; [done|]. split; [|done].
      intros id Hid. destruct (Hd' id Hid) as [[Hin Hc]|Hprev]; [|by right].
      left. split; [by apply elem_of_cons; right | exact Hc].
Qed.

(** The state [initApp] leaves, whichever way it ends. *)
Lemma initApp_state (creators : gmap string Main.ModelEntry)
    (mats : gmap nat THREE.Material) :
  let r := initApp creators mats in
  let w := snd r in
  all_hidden (snd w) /\
  Main.currentModelId (snd w) = None /\
  GSAP.tweens (Main.timeline (snd w)) = [] /\
  Main.materials (snd w) = mats /\
  ScrollController.activeSection (fst w) = "hero"%string /\
  ScrollController.notified (fst w) = [] /\
  (forall id, is_Some (Main.models (snd w) !! id) ->
              id ∈ Main.ERA_ORDER /\ is_Some (creators !! id)) /\
  (fst r = Normal ->
   ScrollController.onSectionChangeCallback (fst w) = Some Main.onSectionChange /\
   registered_alike w) /\
  (fst r <> Normal ->
   ScrollController.onSectionChangeCallback (fst w) = None).
Proof.
  unfold initApp, buildModels.
  pose proof (buildModels_from_controller Main.ERA_ORDER creators
                (ScrollController.initial, Main.initial mats))
    as (Ca & Cc & Cn).
  pose proof (buildModels_from_main Main.ERA_ORDER creators
                (ScrollController.initial, Main.initial mats))
    as ((K1 & K2 & K3) & Hh & Hd & Ha).
  assert (Hempty : all_hidden (Main.initial mats)).
  { intros id e' Hid. simpl in Hid. by rewrite lookup_empty in Hid. }
  assert (Hkeys : forall id,
            is_Some (Main.models
                       (snd (snd (buildModels_from Main.ERA_ORDER creators
                          (ScrollController.initial, Main.initial mats)))) !! id) ->
            id ∈ Main.ERA_ORDER /\ is_Some (creators !! id)).
  { intros id Hid. destruct (Hd id Hid) as [H|H]; [exact H|].
    simpl in H. rewrite lookup_empty in H. by destruct H. }
  destruct (buildModels_from _ _ _) as [[|e] [sc st]]; simpl in *.
  - rewrite Ca. rewrite bool_decide_eq_false_2 by apply hero_unknown.
    rewrite K2. do 6 (split; [by auto|]). split; [exact Hkeys|].
    split; [|done]. intros _. split; [reflexivity|].
    apply Ha; [reflexivity|]. intros id. simpl. by rewrite !lookup_empty.
  - rewrite K2. do 6 (split; [by auto|]). split; [exact Hkeys|].
    split; [done|]. intros _. exact Cc.
Qed.



(** ** Invariants of a run *)

Section Completion.

Context {A St : Type}.
Variable onUpdate : A -> Q -> St -> St.
Variable onComplete : A -> St -> St.

(** In a frame a tween of the timeline either stays in the timeline or runs
    its [onComplete]. *)
Lemma renderAll_keeps_or_completes (P Post : St -> Prop)
    (tw : GSAP.Tween A) (now : Q) :
  (forall a q s, P s -> P (onUpdate a q s)) ->
  (forall a s, P s -> P (onComplete a s)) ->
  (forall a q s, Post s -> Post (onUpdate a q s)) ->
  (forall a s, Post s -> Post (onComplete a s)) ->
  (forall s, P s -> Post (onComplete (GSAP.vars tw) s)) ->
  forall tws s, tw ∈ tws -> P s ->
    tw ∈ fst (GSAP.renderAll onUpdate onComplete now tws s) \/
    Post (snd (GSAP.renderAll onUpdate onComplete now tws s)).
Proof.
  intros Pu Pc Qu Qc Hfire tws.
  induction tws as [|tw' tws IH]; intros s Hin Hs.
  - by apply elem_of_nil in Hin.
  - simpl. destruct (GSAP.render onUpdate onComplete now tw' s)
      as [kept s1] eqn:Hr.
    assert (Hs1 : P s1).
    { unfold GSAP.render in Hr.
      destruct (Qle_bool (GSAP.created tw' + GSAP.delay tw') now);
        [destruct (Qle_bool (GSAP.endTime tw') now)|];
        injection Hr as <- <-; auto. }
    pose proof (renderAll_invariant onUpdate onComplete Post Qu Qc now tws s1)
      as Hrest.
    specialize (IH s1).
    destruct (GSAP.renderAll onUpdate onComplete now tws s1) as [rest s2].
    simpl in *. apply elem_of_cons in Hin as [<-|Hin].
    + unfold GSAP.render in Hr.
      destruct (Qle_bool (GSAP.created tw + GSAP.delay tw) now);
        [destruct (Qle_bool (GSAP.endTime tw) now)|];
        injection Hr as <- <-.
      * right. apply Hrest. auto.
      * left. apply elem_of_cons. by left.
      * left. apply elem_of_cons. by left.
    + destruct (IH Hin Hs1) as [Hk|Hp]; [|by right].
      left. destruct kept; [apply elem_of_cons; by right | exact Hk].
Qed.

End Completion.

Lemma callbacks_keep_absent (id : string) :
  (forall a q s, Main.models s !! id = None ->
                 Main.models (Main.onUpdate a q s) !! id = None) /\
  (forall a s, Main.models s !! id = None ->
               Main.models (Main.onComplete a s) !! id = None).
Proof.
  split.
  - intros [e|e] q s H; simpl;
      by rewrite (proj1 (setModelOpacity_frame _ _ _)).
  - intros [e|e] s H; simpl; rewrite (proj1 (setModelOpacity_frame _ _ _));
      [|done].
    rewrite setModelVisible_lookup. destruct (decide (e = id)); [|done].
    by rewrite H.
Qed.

Lemma tick_keeps_absent (id : string) (now : Q) (st : Main.State) :
  Main.models st !! id = None -> Main.models (Main.tick now st) !! id = None.
Proof.
  intros H. rewrite tick_unfold. simpl.
  destruct (callbacks_keep_absent id) as [Hu Hc].
  by apply (renderAll_invariant Main.onUpdate Main.onComplete
              (fun s => Main.models s !! id = None) Hu Hc).
Qed.

(** In a frame a pending fade-out stays pending or hides its model. *)
Lemma tick_keeps_or_hides (id : string) (tw : GSAP.Tween Main.FadeCallbacks)
    (now : Q) (st : Main.State) :
  GSAP.vars tw = Main.FadeOut id ->
  tw ∈ GSAP.tweens (Main.timeline st) ->
  is_Some (Main.models st !! id) ->
  tw ∈ GSAP.tweens (Main.timeline (Main.tick now st)) \/
  hidden id (Main.tick now st).
Proof.
  intros Hv Hin Hm. rewrite tick_unfold.
  destruct (callbacks_keep_models id) as [Pu Pc].
  destruct (callbacks_keep_hidden id) as [Qu Qc].
  apply (renderAll_keeps_or_completes Main.onUpdate Main.onComplete
           (fun s => is_Some (Main.models s !! id)) (hidden id) tw now
           Pu Pc Qu Qc); [|exact Hin|exact Hm].
  intros s. rewrite Hv. apply fadeOut_complete_hides.
Qed.

Lemma tick_accounted (now : Q) (st : Main.State) :
  visible_accounted st -> visible_accounted (Main.tick now st).
Proof.
  intros Hacc id entry Hl Hvis.
  destruct (Main.models st !! id) as [e0|] eqn:Hl0.
  - destruct (THREE.visible (Main.group e0)) eqn:Hv0.
    + destruct (Hacc id e0 Hl0 Hv0) as [Hcur|(tw & Hin & Hvars)].
      * left. by rewrite tick_keeps_current.
      * destruct (tick_keeps_or_hides id tw now st Hvars Hin)
          as [Hk|(e' & Hl' & Hv')]; [by rewrite Hl0 | by right; eauto |].
        rewrite Hl in Hl'. injection Hl' as <-. congruence.
    + assert (Hh : hidden id st) by (by exists e0).
      destruct (tick_keeps_hidden id now st Hh) as (e' & Hl' & Hv').
      rewrite Hl in Hl'. injection Hl' as <-. congruence.
  - by rewrite (tick_keeps_absent id now st Hl0) in Hl.
Qed.

Lemma showModel_accounted (eraId : string) (st : Main.State) :
  Main.currentModelId st <> Some ""%string ->
  visible_accounted st -> visible_accounted (Main.showModel eraId st).
Proof.
  intros Hne Hacc.
  destruct (decide (Main.currentModelId st = Some eraId)) as [Hc|Hc].
  { unfold Main.showModel. by rewrite bool_decide_eq_true_2. }
  intros id entry Hl Hvis. rewrite showModel_current.
  destruct (decide (eraId = id)) as [->|Hid]; [by left|]. right.
  assert (Hl0 : Main.models st !! id = Some entry).
  { rewrite showModel_models in Hl by done.
    destruct (Main.models st !! eraId); [|done].
    by rewrite lookup_alter_ne in Hl. }
  destruct (Hacc id entry Hl0 Hvis) as [Hcur|(tw & Hin & Hvars)].
  - eexists. split.
    + apply (showModel_schedules_fadeOut id eraId st Hcur);
        [congruence | done | by rewrite Hl0].
    + reflexivity.
  - exists tw. split; [by apply showModel_keeps_tweens | exact Hvars].
Qed.

Lemma hideAllModels_hides (st : Main.State) :
  all_hidden (Main.hideAllModels st).
Proof.
  intros id entry Hl. simpl in Hl. rewrite lookup_fmap in Hl.
  destruct (Main.models st !! id); simpl in Hl; [|done].
  by injection Hl as <-.
Qed.

Lemma all_hidden_accounted (st : Main.State) :
  all_hidden st -> visible_accounted st.
Proof. intros Hh id entry Hl Hv. rewrite (Hh id entry Hl) in Hv. done. Qed.

(** The invariant of a run: the observer of [main.js] is installed, the
    current model follows the active section, and every visible model is
    accounted for. *)
Lemma step_invariant (w : World) (ev : AppEvent) :
  ScrollController.onSectionChangeCallback (fst w) = Some Main.onSectionChange ->
  in_sync w -> visible_accounted (snd w) ->
  ScrollController.onSectionChangeCallback (fst (step w ev))
  = Some Main.onSectionChange /\
  in_sync (step w ev) /\ visible_accounted (snd (step w ev)).
Proof.
  intros Hcb Hsync Hacc.
  assert (Henter : forall sectionId,
    ScrollController.onSectionChangeCallback
      (fst (ScrollController.setActiveSection sectionId w))
    = Some Main.onSectionChange /\
    in_sync (ScrollController.setActiveSection sectionId w) /\
    visible_accounted (snd (ScrollController.setActiveSection sectionId w))).
  { intros sectionId.
    destruct (decide (ScrollController.activeSection (fst w) = sectionId))
      as [Hsame|Hne].
    - by rewrite setActiveSection_same.
    - rewrite setActiveSection_changes by done. unfold in_sync. simpl.
      split; [exact Hcb|]. unfold Main.onSectionChange.
      case_bool_decide as Hera.
      + split; [apply showModel_current|].
        apply showModel_accounted; [|exact Hacc].
        unfold in_sync in Hsync. rewrite Hsync.
        case_bool_decide as Hact; [|done].
        intros [= Hempty]. rewrite Hempty in Hact.
        unfold Main.ERA_ORDER in Hact.
        repeat (apply elem_of_cons in Hact as [Hact|Hact];
                [discriminate Hact|]).
        by apply elem_of_nil in Hact.
      + split; [reflexivity|].
        apply all_hidden_accounted, hideAllModels_hides. }
  destruct ev as [[sectionId|sectionId|sectionId progress]|now]; simpl.
  - apply Henter.
  - apply Henter.
  - destruct w as [sc st]. simpl in *. unfold in_sync. simpl.
    unfold ScrollController.onUpdate.
    destruct (ScrollController.sectionModels sc !! sectionId) as [[[ps|]]|];
      simpl; done.
  - destruct w as [sc st]. unfold frame, in_sync in *. simpl in *.
    split; [exact Hcb|]. split; [by rewrite tick_keeps_current|].
    by apply tick_accounted.
Qed.

Lemma run_invariant (evs : list AppEvent) (w : World) :
  ScrollController.onSectionChangeCallback (fst w) = Some Main.onSectionChange ->
  in_sync w -> visible_accounted (snd w) ->
  in_sync (run evs w) /\ visible_accounted (snd (run evs w)).
Proof.
  revert w. induction evs as [|ev evs IH]; intros w Hcb Hsync Hacc; [done|].
  simpl. destruct (step_invariant w ev Hcb Hsync Hacc) as (H1 & H2 & H3).
  by apply IH.
Qed.

Lemma initApp_invariant (creators : gmap string Main.ModelEntry)
    (mats : gmap nat THREE.Material) (w : World) :
  initApp creators mats = (Normal, w) ->
  ScrollController.onSectionChangeCallback (fst w) = Some Main.onSectionChange /\
  in_sync w /\ visible_accounted (snd w).
Proof.
  intros Hinit.
  pose proof (initApp_state creators mats) as Hstate.
  rewrite Hinit in Hstate. simpl in Hstate.
  destruct Hstate as (Hh & Hc & _ & _ & Ha & _ & _ & Hn & _).
  destruct (Hn eq_refl) as [Hcb _].
  split; [exact Hcb|]. split; [|by apply all_hidden_accounted].
  unfold in_sync. rewrite Hc, Ha.
  by rewrite bool_decide_eq_false_2 by apply hero_unknown.
Qed.

(** X8. After a normal [initApp] and any sequence of driver events and
    frames, the current model of [main.js] is the model of the controller's
    active section when that section is an era, and there is no current
    model otherwise. *)
Theorem current_model_follows_active_section
    (creators : gmap string Main.ModelEntry) (mats : gmap nat THREE.Material)
    (w : World) (evs : list AppEvent) :
  initApp creators mats = (Normal, w) -> in_sync (run evs w).
Proof.
  intros Hinit.
  destruct (initApp_invariant creators mats w Hinit) as (Hcb & Hs & Ha).
  by destruct (run_invariant evs w Hcb Hs Ha).
Qed.

Lemma current_model_follows_active_section_witness :
  in_sync (run [EvDriver (ScrollController.Enter "wheel"); EvFrame 1;
                EvDriver (ScrollController.Enter "steam");
                EvDriver (ScrollController.EnterBack "hero")]
               Example.started).
Proof.
  apply (current_model_follows_active_section Example.creators Example.mats).
  reflexivity.
Defined.

(** X9. After a normal [initApp] and any sequence of driver events and
    frames, every visible model is the current model or has a fade-out
    pending in the timeline: no model stays visible without being current
    or on its way out. *)
Theorem visible_models_accounted
    (creators : gmap string Main.ModelEntry) (mats : gmap nat THREE.Material)
    (w : World) (evs : list AppEvent) :
  initApp creators mats = (Normal, w) ->
  visible_accounted (snd (run evs w)).
Proof.
  intros Hinit.
  destruct (initApp_invariant creators mats w Hinit) as (Hcb & Hs & Ha).
  by destruct (run_invariant evs w Hcb Hs Ha).
Qed.

Lemma visible_models_accounted_witness :
  initApp Example.creators Example.mats = (Normal, Example.started) /\
  visible_accounted
    (snd (run [EvDriver (ScrollController.Enter "wheel"); EvFrame 1;
               EvDriver (ScrollController.Enter "steam"); EvFrame 1.1]
              Example.started)).
Proof.
  split; [reflexivity|].
  apply (visible_models_accounted Example.creators Example.mats).
  reflexivity.
Defined.

(** ** How the hard cut and a switch of models end *)

Lemma tick_all_hidden (now : Q) (st : Main.State) :
  all_hidden st -> all_hidden (Main.tick now st).
Proof.
  intros Hall id entry Hl.
  destruct (Main.models st !! id) as [e0|] eqn:Hl0.
  - assert (Hh : hidden id st) by (exists e0; eauto).
    destruct (tick_keeps_hidden id now st Hh) as (e' & Hl' & Hv').
    rewrite Hl in Hl'. by injection Hl' as <-.
  - by rewrite (tick_keeps_absent id now st Hl0) in Hl.
Qed.

Lemma run_no_enter (evs : list AppEvent) (w : World) :
  Forall no_enter evs -> all_hidden (snd w) ->
  all_hidden (snd (run evs w)) /\
  Main.currentModelId (snd (run evs w)) = Main.currentModelId (snd w) /\
  ScrollController.activeSection (fst (run evs w))
  = ScrollController.activeSection (fst w).
Proof.
  intros Hevs. revert w.
  induction Hevs as [|ev evs Hev _ IH]; intros w Hh; [done|].
  simpl.
  assert (Hstep : all_hidden (snd (step w ev)) /\
                  Main.currentModelId (snd (step w ev))
                  = Main.currentModelId (snd w) /\
                  ScrollController.activeSection (fst (step w ev))
                  = ScrollController.activeSection (fst w)).
  { destruct w as [sc st].
    destruct ev as [[s|s|s p]|now]; simpl in Hev; try done; simpl in *.
    - split; [exact Hh|]. split; [reflexivity|].
      unfold ScrollController.onUpdate.
      destruct (ScrollController.sectionModels sc !! s) as [[[ps|]]|];
        simpl; done.
    - split; [by apply tick_all_hidden|].
      split; [by rewrite tick_keeps_current | reflexivity]. }
  destruct Hstep as (H1 & H2 & H3).
  destruct (IH (step w ev) H1) as (H1' & H2' & H3').
  split; [exact H1'|]. split; congruence.
Qed.

(** X10. The hard cut is lasting: after an enter event for a section that
    is not an era (the hero section, for one), every model is hidden and
    none is current, and frames and update events leave it so, whatever
    tweens were pending, until the next enter event. *)
Theorem hard_cut_persists (w : World) (sectionId : string)
    (evs : list AppEvent) :
  ScrollController.onSectionChangeCallback (fst w) = Some Main.onSectionChange ->
  sectionId ∉ Main.ERA_ORDER ->
  ScrollController.activeSection (fst w) <> sectionId ->
  Forall no_enter evs ->
  let w' := run evs (enter sectionId w) in
  all_hidden (snd w') /\
  Main.currentModelId (snd w') = None /\
  ScrollController.activeSection (fst w') = sectionId.
Proof.
  intros Hcb Hunknown Hne Hevs w'.
  assert (Hcut : all_hidden (snd (enter sectionId w)) /\
                 Main.currentModelId (snd (enter sectionId w)) = None /\
                 ScrollController.activeSection (fst (enter sectionId w))
                 = sectionId).
  { unfold enter. simpl. rewrite setActiveSection_changes by done. simpl.
    unfold Main.onSectionChange. rewrite bool_decide_eq_false_2 by done.
    split; [apply hideAllModels_hides | done]. }
  destruct Hcut as (Hh & Hc & Ha).
  destruct (run_no_enter evs (enter sectionId w) Hevs Hh) as (H1 & H2 & H3).
  unfold w'. split; [exact H1|]. split; congruence.
Qed.

Lemma hard_cut_persists_witness :
  let w' := run [EvFrame 1.2; EvDriver (ScrollController.Update "wheel" 0.5);
                 EvFrame 2]
                (enter "hero" (enter "wheel" Example.started)) in
  all_hidden (snd w') /\
  Main.currentModelId (snd w') = None /\
  ScrollController.activeSection (fst w') = "hero"%string.
Proof.
  apply (hard_cut_persists (enter "wheel" Example.started) "hero").
  - reflexivity.
  - exact hero_unknown.
  - discriminate.
  - repeat constructor.
Defined.

(** ** Opacities stay in range *)

Lemma progress_range {A : Type} (tw : GSAP.Tween A) (now : Q) :
  0 <= GSAP.progress tw now /\ GSAP.progress tw now <= 1.
Proof.
  unfold GSAP.progress. destruct (Qle_bool (GSAP.endTime tw) now); [lra|].
  apply clamp01_range.
Qed.

Section RangedRendering.

Context {A St : Type}.
Variable onUpdate : A -> Q -> St -> St.
Variable onComplete : A -> St -> St.

(** As [renderAll_invariant], for a property [onUpdate] keeps when the
    progress it is given lies in [0,1]. *)
Lemma renderAll_invariant_ranged (P : St -> Prop) :
  (forall a q s, 0 <= q -> q <= 1 -> P s -> P (onUpdate a q s)) ->
  (forall a s, P s -> P (onComplete a s)) ->
  forall now tws s, P s ->
    P (snd (GSAP.renderAll onUpdate onComplete now tws s)).
Proof.
  intros Hu Hc now tws. induction tws as [|tw tws IH]; intros s Hs.
  - exact Hs.
  - simpl. unfold GSAP.render.
    destruct (progress_range tw now) as [H0 H1].
    destruct (Qle_bool (GSAP.created tw + GSAP.delay tw) now);
      [destruct (Qle_bool (GSAP.endTime tw) now)|].
    + specialize (IH (onComplete (GSAP.vars tw)
                        (onUpdate (GSAP.vars tw) (GSAP.progress tw now) s))).
      destruct (GSAP.renderAll _ _ _ _ _). apply IH. auto.
    + specialize (IH (onUpdate (GSAP.vars tw) (GSAP.progress tw now) s)).
      destruct (GSAP.renderAll _ _ _ _ _). apply IH. auto.
    + specialize (IH s). destruct (GSAP.renderAll _ _ _ _ _). by apply IH.
Qed.

End RangedRendering.

Lemma setModelOpacity_range (eraId : string) (v : Q) (st : Main.State) :
  0 <= v -> v <= 1 ->
  opacity_in_range (Main.materials st) ->
  opacity_in_range (Main.materials (Main.setModelOpacity eraId v st)).
Proof.
  intros H0 H1 Hr. unfold Main.setModelOpacity.
  destruct (Main.models st !! eraId) as [model|]; [|exact Hr]. simpl.
  intros i mat Hl. rewrite setGroupOpacity_lookup in Hl.
  destruct (decide (i ∈ group_materials (Main.group model))); [|by eapply Hr].
  destruct (Main.materials st !! i); simpl in Hl; [|done].
  injection Hl as <-. simpl. done.
Qed.

Lemma tick_range (now : Q) (st : Main.State) :
  opacity_in_range (Main.materials st) ->
  opacity_in_range (Main.materials (Main.tick now st)).
Proof.
  intros Hr. rewrite tick_unfold. simpl.
  apply (renderAll_invariant_ranged Main.onUpdate Main.onComplete
           (fun s => opacity_in_range (Main.materials s))); [| |exact Hr].
  - intros [e|e] q s H0 H1 Hs; simpl; apply setModelOpacity_range;
      solve [lra | exact Hs].
  - intros [e|e] s Hs; simpl; apply setModelOpacity_range;
      solve [lra | exact Hs].
Qed.

Lemma showModel_range (eraId : string) (st : Main.State) :
  opacity_in_range (Main.materials st) ->
  opacity_in_range (Main.materials (Main.showModel eraId st)).
Proof.
  intros Hr. unfold Main.showModel. case_bool_decide; [exact Hr|].
  destruct (Main.truthy_id (Main.currentModelId st)) as [cur|];
    [destruct (Main.models st !! cur) as [prev|]|]; simpl;
    destruct (Main.models st !! eraId); simpl; try exact Hr.
  - apply (setModelOpacity_range eraId 0
             (Main.gsap_to 0.3 0 (Main.FadeOut cur) st)); [lra | lra | exact Hr].
  - apply (setModelOpacity_range eraId 0 st); [lra | lra | exact Hr].
  - apply (setModelOpacity_range eraId 0 st); [lra | lra | exact Hr].
Qed.

(** X11. If every opacity in the store of materials lies in [0,1], it
    still does after any sequence of ticks, [showModel] calls,
    [hideAllModels] calls and section changes: a fade writes nothing but
    0, 1, a tween's progress and one minus that progress. *)
Theorem opacity_stays_in_range (ops : list MainOp) (st : Main.State) :
  opacity_in_range (Main.materials st) ->
  opacity_in_range (Main.materials (run_ops ops st)).
Proof.
  revert st. induction ops as [|op ops IH]; intros st Hr; [exact Hr|].
  simpl. apply IH. destruct op as [now|eraId| |n p]; simpl.
  - by apply tick_range.
  - by apply showModel_range.
  - exact Hr.
  - unfold Main.onSectionChange. case_bool_decide.
    + by apply showModel_range.
    + exact Hr.
Qed.

Lemma example_mats_in_range : opacity_in_range Example.mats.
Proof.
  intros i mat Hl. unfold Example.mats in Hl.
  repeat (apply lookup_insert_Some in Hl as [[_ <-]|[_ Hl]];
          [simpl; lra|]).
  by rewrite lookup_empty in Hl.
Qed.

Lemma opacity_stays_in_range_witness :
  opacity_in_range (Main.materials (snd Example.started)) /\
  opacity_in_range
    (Main.materials
       (run_ops [OpShowModel "wheel"; OpTick 0.3; OpShowModel "steam";
                 OpTick 0.45]
                (snd Example.started))).
Proof.
  split; [exact example_mats_in_range|].
  apply (opacity_stays_in_range
           [OpShowModel "wheel"; OpTick 0.3; OpShowModel "steam"; OpTick 0.45]
           (snd Example.started)).
  exact example_mats_in_range.
Defined.

(** ** An undisturbed switch of models runs to its end *)

Lemma Qle_bool_false (a b : Q) : b < a -> Qle_bool a b = false.
Proof.
  intros H. destruct (Qle_bool a b) eqn:E; [|reflexivity].
  apply Qle_bool_iff in E. lra.
Qed.

Lemma Qle_bool_true (a b : Q) : a <= b -> Qle_bool a b = true.
Proof. apply Qle_bool_iff. Qed.

Lemma group_materials_set_visible (v : bool) (g : THREE.Object3D) :
  group_materials (THREE.set_visible v g) = group_materials g.
Proof. by rewrite !group_materials_unfold. Qed.

(** What [setModelOpacity] does to the store when the model exists. *)
Lemma setModelOpacity_lookup (eraId : string) (v : Q) (st : Main.State)
    (entry : Main.ModelEntry) (i : nat) :
  Main.models st !! eraId = Some entry ->
  Main.materials (Main.setModelOpacity eraId v st) !! i =
  if decide (i ∈ group_materials (Main.group entry))
  then fade_material v <$> Main.materials st !! i
  else Main.materials st !! i.
Proof.
  intros Hl. unfold Main.setModelOpacity. rewrite Hl. simpl.
  apply setGroupOpacity_lookup.
Qed.

Section Switch.

(** The model left, the model shown, their materials, and the time of the
    switch. *)
Variables (A B : string) (GA GB : list nat) (c : Q).
Hypothesis A_not_B : A <> B.

(** The models of the two eras are there, with these materials; the new
    one is current and visible. *)
Let scene0 (s : Main.State) : Prop :=
  Main.currentModelId s = Some B /\
  (exists e, Main.models s !! A = Some e /\
             group_materials (Main.group e) = GA) /\
  (exists e, Main.models s !! B = Some e /\
             group_materials (Main.group e) = GB /\
             THREE.visible (Main.group e) = true).

(** The materials satisfying [S] that are in the store have opacity 1. *)
Let opaque (S : nat -> Prop) (s : Main.State) : Prop :=
  forall i mat, S i -> Main.materials s !! i = Some mat ->
                THREE.opacity mat = 1.

(** The fade-out has completed. *)
Let scene1 (s : Main.State) : Prop :=
  scene0 s /\ hidden A s /\ opaque (fun i => i ∈ GA /\ i ∉ GB) s.

(** Both fades have completed. *)
Let scene2 (s : Main.State) : Prop :=
  scene0 s /\ hidden A s /\ opaque (fun i => i ∈ GA \/ i ∈ GB) s.

Lemma scene0_setModelOpacity (id : string) (v : Q) (s : Main.State) :
  scene0 s -> scene0 (Main.setModelOpacity id v s).
Proof.
  unfold scene0. destruct (setModelOpacity_frame id v s) as (-> & -> & _).
  done.
Qed.

Lemma hidden_setModelOpacity (id id' : string) (v : Q) (s : Main.State) :
  hidden id s -> hidden id (Main.setModelOpacity id' v s).
Proof.
  unfold hidden. by destruct (setModelOpacity_frame id' v s) as (-> & _).
Qed.

Lemma scene0_update (a : Main.FadeCallbacks) (q : Q) (s : Main.State) :
  scene0 s -> scene0 (Main.onUpdate a q s).
Proof. destruct a; simpl; apply scene0_setModelOpacity. Qed.

Lemma scene1_update_in (q : Q) (s : Main.State) :
  scene1 s -> scene1 (Main.onUpdate (Main.FadeIn B) q s).
Proof.
  intros (H0 & Hh & Ho). simpl.
  split; [by apply scene0_setModelOpacity|].
  split; [by apply hidden_setModelOpacity|].
  destruct H0 as (_ & _ & eB & HB & HG & _).
  intros i mat [Hin Hnot] Hl.
  rewrite (setModelOpacity_lookup B q s eB i HB), HG in Hl.
  rewrite decide_False in Hl by done. by eapply Ho.
Qed.

Lemma scene1_complete_out (s : Main.State) :
  scene0 s -> scene1 (Main.onComplete (Main.FadeOut A) s).
Proof.
  intros (Hc & (eA & HA & HGA) & (eB & HB & HGB & HvB)). simpl.
  assert (HA' : Main.models (Main.setModelVisible A false s) !! A
                = Some (Main.set_group
                          (THREE.set_visible false (Main.group eA)) eA)).
  { rewrite setModelVisible_lookup, decide_True, HA by done. reflexivity. }
  assert (HB' : Main.models (Main.setModelVisible A false s) !! B = Some eB).
  { by rewrite setModelVisible_lookup, decide_False. }
  split; [|split].
  - apply scene0_setModelOpacity. split; [exact Hc|]. split.
    + eexists. split; [exact HA'|]. simpl.
      by rewrite group_materials_set_visible.
    + by exists eB.
  - apply hidden_setModelOpacity. eexists. split; [exact HA'|]. reflexivity.
  - intros i mat [Hin _] Hl.
    rewrite (setModelOpacity_lookup A 1 _ _ i HA') in Hl. simpl in Hl.
    rewrite group_materials_set_visible, HGA, decide_True in Hl by done.
    destruct (Main.materials s !! i); simpl in Hl; [|done].
    by injection Hl as <-.
Qed.

Lemma scene2_complete_in (s : Main.State) :
  scene1 s -> scene2 (Main.onComplete (Main.FadeIn B) s).
Proof.
  intros (H0 & Hh & Ho). simpl.
  split; [by apply scene0_setModelOpacity|].
  split; [by apply hidden_setModelOpacity|].
  destruct H0 as (_ & _ & eB & HB & HG & _).
  intros i mat Hin Hl.
  rewrite (setModelOpacity_lookup B 1 s eB i HB), HG in Hl.
  destruct (decide (i ∈ GB)) as [HinB|HnotB].
  - destruct (Main.materials s !! i); simpl in Hl; [|done].
    by injection Hl as <-.
  - apply (Ho i mat); [|exact Hl]. destruct Hin; [done | contradiction].
Qed.

(** Where the switch stands: both tweens pending, the fade-in pending, or
    none left. *)
Let phase (s : Main.State) : Prop :=
  (scene0 s /\
   GSAP.tweens (Main.timeline s) = [fadeOutTween c A; fadeInTween c B]) \/
  (scene1 s /\ GSAP.tweens (Main.timeline s) = [fadeInTween c B]) \/
  (scene2 s /\ GSAP.tweens (Main.timeline s) = []).

Let finished (s : Main.State) : Prop :=
  scene2 s /\ GSAP.tweens (Main.timeline s) = [].

(** The fade-in alone, rendered at [now]. *)
Lemma render_fadeIn (now : Q) (s : Main.State) :
  scene1 s ->
  let r := GSAP.renderAll Main.onUpdate Main.onComplete now
             [fadeInTween c B] s in
  (c + 0.5 <= now -> fst r = [] /\ scene2 (snd r)) /\
  (now < c + 0.5 -> fst r = [fadeInTween c B] /\ scene1 (snd r)).
Proof.
  intros H1. simpl. unfold GSAP.render, GSAP.endTime. simpl. split.
  - intros Hnow. rewrite !Qle_bool_true by lra. simpl.
    split; [reflexivity|].
    by apply scene2_complete_in, scene1_update_in.
  - intros Hnow. rewrite (Qle_bool_false (c + 0.1 + 0.4)) by lra.
    destruct (Qle_bool (c + 0.1) now); simpl;
      (split; [reflexivity|]); [by apply scene1_update_in | exact H1].
Qed.

(** Both tweens, rendered at [now]. *)
Lemma render_both (now : Q) (s : Main.State) :
  scene0 s ->
  let r := GSAP.renderAll Main.onUpdate Main.onComplete now
             [fadeOutTween c A; fadeInTween c B] s in
  (c + 0.5 <= now -> fst r = [] /\ scene2 (snd r)) /\
  (now < c + 0.5 ->
   (fst r = [fadeOutTween c A; fadeInTween c B] /\ scene0 (snd r)) \/
   (fst r = [fadeInTween c B] /\ scene1 (snd r))).
Proof.
  intros H0.
  change (GSAP.renderAll Main.onUpdate Main.onComplete now
            [fadeOutTween c A; fadeInTween c B] s)
    with (let (kept, s1) := GSAP.render Main.onUpdate Main.onComplete now
                              (fadeOutTween c A) s in
          let (rest, s2) := GSAP.renderAll Main.onUpdate Main.onComplete now
                              [fadeInTween c B] s1 in
          (match kept with Some tw' => tw' :: rest | None => rest end, s2)).
  unfold GSAP.render at 1. unfold GSAP.endTime. cbn [GSAP.created GSAP.delay
    GSAP.duration GSAP.vars fadeOutTween].
  destruct (Qlt_le_dec now (c + 0.3)) as [Hearly|Hlate].
  - (* the fade-out is still running *)
    rewrite (Qle_bool_false (c + 0 + 0.3)) by lra.
    assert (Hs1 : scene0 (if Qle_bool (c + 0) now
                          then Main.onUpdate (Main.FadeOut A)
                                 (GSAP.progress (fadeOutTween c A) now) s
                          else s)).
    { destruct (Qle_bool (c + 0) now); [by apply scene0_update | exact H0]. }
    assert (Hin : forall s1, scene0 s1 ->
              GSAP.renderAll Main.onUpdate Main.onComplete now
                [fadeInTween c B] s1
              = ([fadeInTween c B],
                 if Qle_bool (c + 0.1) now
                 then Main.onUpdate (Main.FadeIn B)
                        (GSAP.progress (fadeInTween c B) now) s1
                 else s1)).
    { intros s1 _. simpl. unfold GSAP.render, GSAP.endTime. simpl.
      rewrite (Qle_bool_false (c + 0.1 + 0.4)) by lra.
      by destruct (Qle_bool (c + 0.1) now). }
    split; [intros; lra|]. intros _. left.
    destruct (Qle_bool (c + 0) now); rewrite Hin by done; simpl;
      (split; [reflexivity|]);
      destruct (Qle_bool (c + 0.1) now);
      auto using scene0_update, scene0_setModelOpacity.
  - (* the fade-out completes in this frame *)
    rewrite !Qle_bool_true by lra.
    pose proof (render_fadeIn now
                  (Main.onComplete (Main.FadeOut A)
                     (Main.onUpdate (Main.FadeOut A)
                        (GSAP.progress (fadeOutTween c A) now) s))
                  (scene1_complete_out _ (scene0_update _ _ _ H0)))
      as [Hdone Hrun].
    destruct (GSAP.renderAll Main.onUpdate Main.onComplete now
                [fadeInTween c B] _) as [rest s2].
    simpl in *. split; [exact Hdone|]. intros Hnow. right. by apply Hrun.
Qed.

Lemma tick_phase (now : Q) (s : Main.State) :
  phase s ->
  phase (Main.tick now s) /\ (c + 0.5 <= now -> finished (Main.tick now s)).
Proof.
  intros [[H0 Htw]|[[H1 Htw]|[H2 Htw]]]; rewrite tick_unfold, Htw.
  - destruct (render_both now s H0) as [Hdone Hrun].
    destruct (GSAP.renderAll _ _ _ _ _) as [tws s'] eqn:Hr. simpl in *.
    destruct (Qlt_le_dec now (c + 0.5)) as [Hlt|Hle].
    + split; [|intros; lra].
      destruct (Hrun Hlt) as [[-> Hs]|[-> Hs]]; [left | right; left];
        split; done.
    + destruct (Hdone Hle) as [-> Hs].
      split; [right; right|]; split; done.
  - destruct (render_fadeIn now s H1) as [Hdone Hrun].
    destruct (GSAP.renderAll _ _ _ _ _) as [tws s'] eqn:Hr. simpl in *.
    destruct (Qlt_le_dec now (c + 0.5)) as [Hlt|Hle].
    + split; [|intros; lra].
      destruct (Hrun Hlt) as [-> Hs]. right; left. split; done.
    + destruct (Hdone Hle) as [-> Hs].
      split; [right; right|]; split; done.
  - simpl. split; [right; right|]; split; done.
Qed.

Lemma finished_stable (ts : list Q) (s : Main.State) :
  finished s -> finished (run_frames ts s).
Proof.
  revert s. induction ts as [|t ts IH]; intros s Hf; [exact Hf|].
  simpl. apply IH. destruct Hf as [H2 Htw].
  rewrite tick_unfold, Htw. simpl. split; done.
Qed.

Lemma run_frames_phase (ts : list Q) (s : Main.State) :
  phase s ->
  phase (run_frames ts s) /\
  (Exists (fun t => c + 0.5 <= t) ts -> finished (run_frames ts s)).
Proof.
  revert s. induction ts as [|t ts IH]; intros s Hp.
  - split; [exact Hp|]. intros Hex. inversion Hex.
  - simpl. destruct (tick_phase t s Hp) as [Hp' Hfin].
    destruct (IH _ Hp') as [Hp'' Hex'']. split; [exact Hp''|].
    intros Hex. inversion Hex as [? ? Hnow|? ? Hlater]; subst.
    + apply finished_stable. by apply Hfin.
    + by apply Hex''.
Qed.

(** The switch from [A] to [B], started at time [c] with an empty
    timeline, has finished after frames of which one is at or past
    [c + 0.5]. *)
Lemma switch_finishes (st : Main.State) (eA eB : Main.ModelEntry)
    (ts : list Q) :
  GSAP.tweens (Main.timeline st) = [] ->
  GSAP.time (Main.timeline st) = c ->
  Main.currentModelId st = Some A -> A <> ""%string ->
  Main.models st !! A = Some eA -> group_materials (Main.group eA) = GA ->
  Main.models st !! B = Some eB -> group_materials (Main.group eB) = GB ->
  Exists (fun t => c + 0.5 <= t) ts ->
  finished (run_frames ts (Main.showModel B st)).
Proof.
  intros Htw Htime Hcur HA HlA HgA HlB HgB Hex.
  apply run_frames_phase; [|exact Hex]. left.
  assert (Hne : Main.currentModelId st <> Some B) by congruence.
  split.
  - split; [apply showModel_current|]. rewrite showModel_models, HlB by done.
    split.
    + exists eA. by rewrite lookup_alter_ne.
    + eexists. rewrite lookup_alter_eq, HlB. simpl.
      split; [reflexivity|]. simpl.
      by rewrite group_materials_set_visible.
  - rewrite showModel_timeline by done. rewrite Hcur. simpl.
    destruct (String.eqb A "") eqn:E; [by apply String.eqb_eq in E|].
    rewrite HlA, HlB. simpl. by rewrite Htw, Htime.
Qed.

End Switch.

(** X12. An undisturbed switch runs to its end.  When the timeline is empty
    and the current model [A] is left for another model [B], then after
    frames of which one is at least 0.5 s after the switch: [B] is current
    and visible, [A] is hidden, no tween is left in the timeline, and every
    material of the two groups has opacity 1, whatever its opacity was
    before the switch. *)
Theorem switch_completes (st : Main.State) (A B : string)
    (eA eB : Main.ModelEntry) (ts : list Q) :
  GSAP.tweens (Main.timeline st) = [] ->
  Main.currentModelId st = Some A -> A <> ""%string -> A <> B ->
  Main.models st !! A = Some eA -> Main.models st !! B = Some eB ->
  Exists (fun t => GSAP.time (Main.timeline st) + 0.5 <= t) ts ->
  let st' := run_frames ts (Main.showModel B st) in
  Main.currentModelId st' = Some B /\
  GSAP.tweens (Main.timeline st') = [] /\
  hidden A st' /\
  (exists e, Main.models st' !! B = Some e /\
             THREE.visible (Main.group e) = true) /\
  (forall i mat,
     i ∈ group_materials (Main.group eA) \/
     i ∈ group_materials (Main.group eB) ->
     Main.materials st' !! i = Some mat -> THREE.opacity mat = 1).
Proof.
  intros Htw Hcur HA HAB HlA HlB Hex st'.
  destruct (switch_finishes A B (group_materials (Main.group eA))
              (group_materials (Main.group eB))
              (GSAP.time (Main.timeline st)) HAB st eA eB ts
              Htw eq_refl Hcur HA HlA eq_refl HlB eq_refl Hex)
    as [((Hc & _ & (e & Hl & _ & Hv)) & Hh & Ho) Hempty].
  split; [exact Hc|]. split; [exact Hempty|]. split; [exact Hh|].
  split; [by exists e | exact Ho].
Qed.

Lemma switch_completes_witness :
  let st' := run_frames [1.2; 1.6]
               (Main.showModel "steam" (snd Example.wheelShown)) in
  Main.currentModelId st' = Some "steam"%string /\
  GSAP.tweens (Main.timeline st') = [] /\
  hidden "wheel" st' /\
  (exists e, Main.models st' !! "steam"%string = Some e /\
             THREE.visible (Main.group e) = true) /\
  (forall i mat,
     i ∈ group_materials
           (THREE.set_visible true
              (THREE.set_visible false (Example.groupOf Example.wheelParts))) \/
     i ∈ group_materials
           (THREE.set_visible false (Example.groupOf Example.steamParts)) ->
     Main.materials st' !! i = Some mat -> THREE.opacity mat = 1).
Proof.
  apply (switch_completes (snd Example.wheelShown) "wheel" "steam"
           {| Main.group :=
                THREE.set_visible true
                  (THREE.set_visible false (Example.groupOf Example.wheelParts));
              Main.parts := snd (setupExplodedView Example.wheelParts) |}
           {| Main.group :=
                THREE.set_visible false (Example.groupOf Example.steamParts);
              Main.parts := snd (setupExplodedView Example.steamParts) |}
           [1.2; 1.6]).
  - reflexivity.
  - reflexivity.
  - discriminate.
  - discriminate.
  - reflexivity.
  - reflexivity.
  - apply Exists_cons_tl, Exists_cons_hd. vm_compute. discriminate.
Defined.

(** ** Scroll triggers *)





(** ** The first model shown fades in *)

Section FirstShow.

(** The model shown, its materials, and the time at which it is shown. *)
Variables (B : string) (GB : list nat) (c : Q).

(** The model is there with these materials, current and visible. *)
Let shown (s : Main.State) : Prop :=
  Main.currentModelId s = Some B /\
  exists e, Main.models s !! B = Some e /\
            group_materials (Main.group e) = GB /\
            THREE.visible (Main.group e) = true.

(** The materials of the group that are in the store have opacity [v]. *)
Let faded_to (v : Q) (s : Main.State) : Prop :=
  forall i mat, i ∈ GB -> Main.materials s !! i = Some mat ->
                THREE.opacity mat = v.

Lemma shown_setModelOpacity (v : Q) (s : Main.State) :
  shown s -> shown (Main.setModelOpacity B v s) /\
             faded_to v (Main.setModelOpacity B v s).
Proof.
  intros Hs. split.
  - unfold shown. by destruct (setModelOpacity_frame B v s) as (-> & -> & _).
  - destruct Hs as (_ & e & Hl & Hg & _). intros i mat Hin Hm.
    rewrite (setModelOpacity_lookup B v s e i Hl), Hg, decide_True in Hm
      by done.
    destruct (Main.materials s !! i); simpl in Hm; [|done].
    by injection Hm as <-.
Qed.

(** One frame while only the fade-in is in the timeline. *)
Lemma tick_fadeIn (now : Q) (s : Main.State) :
  shown s -> GSAP.tweens (Main.timeline s) = [fadeInTween c B] ->
  shown (Main.tick now s) /\
  (now < c + 0.5 ->
   GSAP.tweens (Main.timeline (Main.tick now s)) = [fadeInTween c B]) /\
  (c + 0.1 <= now -> now < c + 0.5 ->
   faded_to (GSAP.progress (fadeInTween c B) now) (Main.tick now s)) /\
  (c + 0.5 <= now ->
   GSAP.tweens (Main.timeline (Main.tick now s)) = [] /\
   faded_to 1 (Main.tick now s)).
Proof.
  intros Hs Htw. rewrite tick_unfold, Htw. simpl.
  unfold GSAP.render, GSAP.endTime. simpl.
  destruct (Qlt_le_dec now (c + 0.5)) as [Hlt|Hle].
  - rewrite (Qle_bool_false (c + 0.1 + 0.4)) by lra.
    destruct (Qlt_le_dec now (c + 0.1)) as [Hearly|Hstarted].
    + rewrite (Qle_bool_false (c + 0.1)) by lra. simpl.
      split; [exact Hs|]. split; [done|]. split; intros; lra.
    + rewrite (Qle_bool_true (c + 0.1)) by lra. simpl.
      destruct (shown_setModelOpacity
                  (GSAP.progress (fadeInTween c B) now) s Hs) as [H1 H2].
      split; [exact H1|]. split; [done|]. split; [done|]. intros; lra.
  - rewrite !Qle_bool_true by lra. simpl.
    destruct (shown_setModelOpacity
                (GSAP.progress (fadeInTween c B) now) s Hs) as [H1 _].
    destruct (shown_setModelOpacity 1 _ H1) as [H3 H4].
    split; [exact H3|]. split; [intros; lra|]. split; [intros; lra|]. done.
Qed.

Lemma first_show_finishes (ts : list Q) (s : Main.State) :
  shown s ->
  GSAP.tweens (Main.timeline s) = [fadeInTween c B] \/
  (GSAP.tweens (Main.timeline s) = [] /\ faded_to 1 s) ->
  Exists (fun t => c + 0.5 <= t) ts ->
  shown (run_frames ts s) /\
  GSAP.tweens (Main.timeline (run_frames ts s)) = [] /\
  faded_to 1 (run_frames ts s).
Proof.
  intros Hs Hphase Hex.
  assert (Hdone : forall ts s,
            shown s -> GSAP.tweens (Main.timeline s) = [] -> faded_to 1 s ->
            shown (run_frames ts s) /\
            GSAP.tweens (Main.timeline (run_frames ts s)) = [] /\
            faded_to 1 (run_frames ts s)).
  { clear. intros ts. induction ts as [|t ts IH]; intros s Hs Htw Hf; [done|].
    simpl. apply IH; rewrite tick_unfold, Htw; simpl; done. }
  revert s Hs Hphase. induction ts as [|t ts IH]; intros s Hs Hphase.
  - inversion Hex.
  - simpl. destruct Hphase as [Htw|[Htw Hf]].
    + destruct (tick_fadeIn t s Hs Htw) as (Hs' & Hkeep & _ & Hend).
      destruct (Qlt_le_dec t (c + 0.5)) as [Hlt|Hle].
      * apply IH; [|exact Hs'|left; by apply Hkeep].
        inversion Hex; subst; [lra | done].
      * destruct (Hend Hle) as [Htw' Hf']. by apply Hdone.
    + apply Hdone; rewrite tick_unfold, Htw; simpl; done.
Qed.

End FirstShow.

Lemma fadeIn_progress (c now : Q) (B : string) :
  c + 0.1 <= now -> now < c + 0.5 ->
  GSAP.progress (fadeInTween c B) now == (now - (c + 0.1)) / 0.4 /\
  0 <= GSAP.progress (fadeInTween c B) now /\
  GSAP.progress (fadeInTween c B) now < 1.
Proof.
  intros Hstart Hend. unfold GSAP.progress, GSAP.endTime. simpl.
  rewrite (Qle_bool_false (c + 0.1 + 0.4)) by lra.
  assert (Hx : (now - (c + 0.1)) / 0.4 == (now - (c + 0.1)) * (5 # 2))
    by (field).
  destruct (clamp01_cases ((now - (c + 0.1)) / 0.4)) as [[H1 ->]|[[H1 ->]|[H1 ->]]].
  - rewrite Hx in H1. split; [|lra]. rewrite Hx. lra.
  - rewrite Hx in H1. lra.
  - rewrite Hx in H1. split; [reflexivity|]. rewrite Hx. lra.
Qed.

(** X14. The first model shown fades in.  When no model is current and the
    timeline is empty, [showModel] makes the model current and visible at
    once with all its materials at opacity 0; a frame [now] between 0.1 s
    and 0.5 s later leaves them at opacity [(now - 0.1 s) / 0.4 s], below 1;
    and after frames of which one is at least 0.5 s later they have
    opacity 1, the model is visible and the timeline is empty. *)
Theorem first_show_fades_in (st : Main.State) (B : string)
    (eB : Main.ModelEntry) :
  GSAP.tweens (Main.timeline st) = [] ->
  Main.currentModelId st = None ->
  Main.models st !! B = Some eB ->
  let c := GSAP.time (Main.timeline st) in
  let G := group_materials (Main.group eB) in
  let at_opacity (P : Q -> Prop) (s : Main.State) :=
    forall i mat, i ∈ G -> Main.materials s !! i = Some mat ->
                  P (THREE.opacity mat) in
  let visible_current (s : Main.State) :=
    Main.currentModelId s = Some B /\
    exists e, Main.models s !! B = Some e /\
              THREE.visible (Main.group e) = true in
  (visible_current (Main.showModel B st) /\
   at_opacity (fun o => o = 0) (Main.showModel B st)) /\
  (forall now, c + 0.1 <= now -> now < c + 0.5 ->
     at_opacity (fun o => o == (now - (c + 0.1)) / 0.4 /\ 0 <= o /\ o < 1)
                (Main.tick now (Main.showModel B st))) /\
  (forall ts, Exists (fun t => c + 0.5 <= t) ts ->
     visible_current (run_frames ts (Main.showModel B st)) /\
     GSAP.tweens (Main.timeline (run_frames ts (Main.showModel B st))) = [] /\
     at_opacity (fun o => o = 1) (run_frames ts (Main.showModel B st))).
Proof.
  intros Htw Hcur HlB c G at_opacity visible_current.
  assert (Hne : Main.currentModelId st <> Some B) by congruence.
  assert (Hmodels : Main.models (Main.showModel B st) !! B
                    = Some (Main.set_group
                              (THREE.set_visible true (Main.group eB)) eB)).
  { rewrite showModel_models, HlB by done.
    by rewrite lookup_alter_eq, HlB. }
  assert (Hshown : Main.currentModelId (Main.showModel B st) = Some B /\
            exists e, Main.models (Main.showModel B st) !! B = Some e /\
                      group_materials (Main.group e) = G /\
                      THREE.visible (Main.group e) = true).
  { split; [apply showModel_current|]. eexists. split; [exact Hmodels|].
    simpl. split; [apply group_materials_set_visible | reflexivity]. }
  assert (Htweens : GSAP.tweens (Main.timeline (Main.showModel B st))
                    = [fadeInTween c B]).
  { rewrite showModel_timeline by done. rewrite Hcur, HlB. simpl.
    by rewrite Htw. }
  split; [|split].
  - split.
    + destruct Hshown as (Hc & e & Hl & _ & Hv). split; [exact Hc|].
      by exists e.
    + intros i mat Hin Hm. unfold Main.showModel in Hm.
      rewrite bool_decide_eq_false_2, Hcur in Hm by done.
      simpl in Hm. rewrite HlB in Hm. simpl in Hm.
      unfold Main.setModelOpacity in Hm. rewrite HlB in Hm. simpl in Hm.
      rewrite setGroupOpacity_lookup, decide_True in Hm by done.
      destruct (Main.materials st !! i); simpl in Hm; [|done].
      by injection Hm as <-.
  - intros now Hstart Hend i mat Hin Hm.
    destruct (tick_fadeIn B G c now _ Hshown Htweens) as (_ & _ & Hmid & _).
    rewrite (Hmid Hstart Hend i mat Hin Hm).
    by apply fadeIn_progress.
  - intros ts Hex.
    destruct (first_show_finishes B G c ts _ Hshown (or_introl Htweens) Hex)
      as ((Hc & e & Hl & _ & Hv) & Hempty & Hone).
    split; [|split; [exact Hempty | exact Hone]].
    split; [exact Hc | by exists e].
Qed.

Lemma first_show_fades_in_witness :
  let st' := run_frames [0.2; 0.6]
               (Main.showModel "wheel" (snd Example.started)) in
  (Main.currentModelId st' = Some "wheel"%string /\
   exists e, Main.models st' !! "wheel"%string = Some e /\
             THREE.visible (Main.group e) = true) /\
  GSAP.tweens (Main.timeline st') = [].
Proof.
  destruct (first_show_fades_in (snd Example.started) "wheel"
              {| Main.group :=
                   THREE.set_visible false (Example.groupOf Example.wheelParts);
                 Main.parts := snd (setupExplodedView Example.wheelParts) |}
              eq_refl eq_refl eq_refl) as (_ & _ & finish).
  destruct (finish [0.2; 0.6]) as (Hvis & Hempty & _).
  - apply Exists_cons_tl, Exists_cons_hd. vm_compute. discriminate.
  - split; [exact Hvis | exact Hempty].
Defined.
